(** * A 1:1 chat backend: shallow embedding of [main.py] and [schemas.py]

    The handlers of [main.py] are embedded as computations in a state and
    exception monad over an explicit document store.  The store adapter
    ([database.py]) and the drivers ([bson], [pymongo]) lie outside these
    two files; what the handlers rely on from them is written out below.
    Strings are sequences of characters, and integers are unbounded. *)

From Stdlib Require Import ZArith NArith String Ascii List.
From stdpp Require Import base decidable option list sorting strings numbers.

Local Open Scope string_scope.
Local Open Scope list_scope.
Local Open Scope Z_scope.

(** ** Identifier codec ([bson.objectid.ObjectId]) *)

(** A store identifier is a 12-byte value, kept as the number it denotes. *)
Definition oid : Type := N.

Definition oid_bound : N := (2 ^ 96)%N.

Definition hex_digit (c : ascii) : option N :=
  let n := N_of_ascii c in
  if ((48 <=? n) && (n <=? 57))%N then Some (n - 48)%N
  else if ((97 <=? n) && (n <=? 102))%N then Some (n - 87)%N
  else if ((65 <=? n) && (n <=? 70))%N then Some (n - 55)%N
  else None.

(** ASCII whitespace: space, tab, line feed, vertical tab, form feed and
    carriage return. *)
Definition is_space (c : ascii) : bool :=
  let n := N_of_ascii c in
  ((n =? 32) || ((9 <=? n) && (n <=? 13)))%N.

(** [bytes.fromhex(s)]: two adjacent hexadecimal digits for each byte, ASCII
    whitespace before a byte and at the end skipped; [None] stands for the
    [ValueError] raised on any other string. *)
Fixpoint fromhex (s : string) : option (list N) :=
  match s with
  | EmptyString => Some []
  | String c s' =>
      if is_space c then fromhex s'
      else
        match hex_digit c, s' with
        | Some hi, String c' s'' =>
            match hex_digit c' with
            | Some lo => cons (16 * hi + lo)%N <$> fromhex s''
            | None => None
            end
        | _, _ => None
        end
  end.

(** The number a byte string writes, most significant byte first. *)
Definition from_bytes (bs : list N) : N :=
  fold_left (fun a b => 256 * a + b)%N bs 0%N.

(** What [ObjectId(s)] holds is the bytes decoded.  [Full n] stands for 12
    bytes, those of the store identifier [n]; [Short bs] for fewer bytes,
    which is what 24 characters with blanks among them decode to. *)
Inductive objectid : Type :=
  | Full (n : oid)
  | Short (binary : list N).

Definition of_binary (bs : list N) : objectid :=
  if Nat.eqb (List.length bs) 12 then Full (from_bytes bs) else Short bs.

Definition hex_char (d : N) : ascii :=
  if (d <? 10)%N then ascii_of_N (48 + d) else ascii_of_N (87 + d).

Fixpoint hexlify (width : nat) (n : N) (acc : string) : string :=
  match width with
  | O => acc
  | S w => hexlify w (n / 16)%N (String (hex_char (n mod 16)%N) acc)
  end.

(** [str(oid)]: the 24 lower-case hexadecimal digits of the identifier. *)
Definition str_oid (o : oid) : string := hexlify 24 o EmptyString.

(** ** Exceptions and the handler monad *)

Inductive exn : Type :=
  | HTTPException (status_code : Z) (detail : string)
  | InvalidId (s : string).

Inductive result (A : Type) : Type :=
  | Ok (a : A)
  | Raise (e : exn).
Arguments Ok {A} a.
Arguments Raise {A} e.

(** [ObjectId(s)] for a string [s]: a string of 24 characters is handed to
    [bytes.fromhex], and [InvalidId] is raised when that fails or when the
    length is another.  So 24 hexadecimal digits, in either letter case,
    give the identifier they write, and 24 characters with blanks between
    pairs of digits give a shorter byte string, without an error. *)
Definition ObjectId (s : string) : result objectid :=
  if Nat.eqb (String.length s) 24 then
    match fromhex s with
    | Some binary => Ok (of_binary binary)
    | None => Raise (InvalidId s)
    end
  else Raise (InvalidId s).

(** ** Documents ([schemas.py]) *)

(** A timestamp field holds a [datetime] (milliseconds since the epoch) in
    the store and its ISO 8601 text once a document has been normalised. *)
Inductive timeval : Type :=
  | Datetime (t : Z)
  | IsoText (t : Z).

Record stored (A : Type) : Type := Doc { _id : oid; body : A }.
Arguments Doc {A} _ _.
Arguments _id {A} _.
Arguments body {A} _.

Module schemas.

(** Collection "chatuser"; the fields are typed as [create_user] fills them,
    from the request's [model_dump()]. *)
Record ChatUser : Type := {
  username : string;
  avatar_color : option string
}.

(** Collection "conversation"; [updated_at] is the field that
    [send_message] sets on the stored document. *)
Record Conversation : Type := {
  participant_ids : list string;
  last_message_preview : option string;
  updated_at : option timeval
}.

(** Collection "message". *)
Record Message : Type := {
  conversation_id : string;
  sender_id : string;
  text : string;
  delivered : bool;
  read : bool
}.

(** The [Field] constraints declared on the models. *)
Definition ChatUser_valid (u : ChatUser) : bool :=
  (2 <=? String.length (username u))%nat && (String.length (username u) <=? 24)%nat.

Definition Conversation_valid (c : Conversation) : bool :=
  (2 <=? List.length (participant_ids c))%nat && (List.length (participant_ids c) <=? 2)%nat.

Definition Message_valid (m : Message) : bool :=
  (1 <=? String.length (text m))%nat && (String.length (text m) <=? 4000)%nat.

End schemas.

(** ** The store *)

Record world : Type := World {
  chatuser : list (stored schemas.ChatUser);
  conversation : list (stored schemas.Conversation);
  message : list (stored schemas.Message);
  next_oid : oid;
  clock : Z
}.

Definition M (A : Type) : Type := world -> result A * world.

Definition ret {A} (a : A) : M A := fun w => (Ok a, w).

Definition raise {A} (e : exn) : M A := fun w => (Raise e, w).

Definition bind {A B} (m : M A) (k : A -> M B) : M B :=
  fun w =>
    match m w with
    | (Ok a, w') => k a w'
    | (Raise e, w') => (Raise e, w')
    end.

Definition lift {A} (r : result A) : M A := fun w => (r, w).

Declare Scope handler_scope.
Delimit Scope handler_scope with handler.
Notation "x <- m ;; k" := (bind m (fun x => k))
  (at level 62, m at next level, right associativity) : handler_scope.
Notation "'do' m ;; k" := (bind m (fun _ => k))
  (at level 62, m at next level, right associativity) : handler_scope.
Local Open Scope handler_scope.

(** A collection of the store, as a handle to read and replace it. *)
Record collection (A : Type) : Type := Collection {
  coll_get : world -> list (stored A);
  coll_set : list (stored A) -> world -> world
}.
Arguments coll_get {A} _ _.
Arguments coll_set {A} _ _ _.

Definition db_chatuser : collection schemas.ChatUser :=
  {| coll_get := chatuser;
     coll_set := fun l w => World l (conversation w) (message w) (next_oid w) (clock w) |}.

Definition db_conversation : collection schemas.Conversation :=
  {| coll_get := conversation;
     coll_set := fun l w => World (chatuser w) l (message w) (next_oid w) (clock w) |}.

Definition db_message : collection schemas.Message :=
  {| coll_get := message;
     coll_set := fun l w => World (chatuser w) (conversation w) l (next_oid w) (clock w) |}.

Definition fresh_oid : M oid :=
  fun w => (Ok (next_oid w),
            World (chatuser w) (conversation w) (message w) (N.succ (next_oid w)) (clock w)).

(** Modelled from the spec: [create_document] of [database.py], which is not
    among the translated sources.  It inserts the given data as a new
    document with a freshly allocated identifier, later identifiers being
    greater than earlier ones, and returns the identifier's string form. *)
Definition create_document {A} (c : collection A) (data : A) : M string :=
  o <- fresh_oid ;;
  (fun w => (Ok (str_oid o), coll_set c (coll_get c w ++ [Doc o data]) w)).

(** [collection.find(filter)]: the matching documents in natural order. *)
Definition find {A} (c : collection A) (P : stored A -> Prop)
    `{!forall d, Decision (P d)} : M (list (stored A)) :=
  fun w => (Ok (filter P (coll_get c w)), w).

(** [collection.find_one(filter)]: the first matching document, or [None]. *)
Definition find_one {A} (c : collection A) (P : stored A -> Prop)
    `{!forall d, Decision (P d)} : M (option (stored A)) :=
  fun w => (Ok (head (filter P (coll_get c w))), w).

Fixpoint update_first {A} (P : stored A -> Prop) `{!forall d, Decision (P d)}
    (f : A -> A) (l : list (stored A)) : list (stored A) :=
  match l with
  | [] => []
  | d :: l' =>
      if decide (P d) then Doc (_id d) (f (body d)) :: l'
      else d :: update_first P f l'
  end.

(** [collection.update_one(filter, {"$set": ...})]: the first matching
    document has the fields set; its identifier and position are kept. *)
Definition update_one {A} (c : collection A) (P : stored A -> Prop)
    `{!forall d, Decision (P d)} (f : A -> A) : M unit :=
  fun w => (Ok tt, coll_set c (update_first P f (coll_get c w)) w).

(** The filter [{"_id": k}]: a stored identifier has 12 bytes, and equals
    [k] when [k] has the same bytes. *)
Definition id_is {A} (k : objectid) (d : stored A) : Prop :=
  match k with
  | Full n => _id d = n
  | Short _ => False
  end.

#[export] Instance id_is_dec {A} (k : objectid) (d : stored A) : Decision (id_is k d) :=
  match k as k0 return Decision (id_is k0 d) with
  | Full n => decide (_id d = n)
  | Short _ => right (fun H : False => H)
  end.

(** The bound of the filter [{"_id": {"$lt": k}}].  Identifiers compare as
    their bytes do, a proper prefix coming first: the stored identifiers
    below [k] are those below [k]'s bytes filled up to 12 with zero bytes. *)
Definition id_bound (k : objectid) : oid :=
  match k with
  | Full n => n
  | Short bs => (from_bytes bs * 256 ^ N.of_nat (12 - List.length bs))%N
  end.

(** [cursor.sort("_id", -1)]. *)
Definition id_desc {A} (x y : stored A) : Prop := (_id y <= _id x)%N.

#[export] Instance id_desc_dec {A} (x y : stored A) : Decision (id_desc x y).
Proof. unfold id_desc. apply _. Defined.

Definition sort_id_desc {A} (l : list (stored A)) : list (stored A) :=
  merge_sort id_desc l.

(** [cursor.limit(n)]: a limit of 0 is no limit, and a positive limit keeps
    that many documents.  A negative limit asks for a single batch of at
    most [|n|] documents, which the store may close earlier; the batch taken
    here is the full one, and what is stated below of a negative limit holds
    of any shorter batch that is not empty. *)
Definition cursor_limit {A} (n : Z) (l : list A) : list A :=
  if n =? 0 then l else take (Z.abs_nat n) l.

(** [datetime.utcnow()]. *)
Definition utcnow : M Z := fun w => (Ok (clock w), w).

(** ** [main.py] *)

(** *** Utilities *)

(** The datetime fields of a document body, converted to ISO text. *)
Class Isoformat (A : Type) : Type := isoformat : A -> A.

Definition timeval_isoformat (v : timeval) : timeval :=
  match v with
  | Datetime t => IsoText t
  | IsoText t => IsoText t
  end.

#[export] Instance ChatUser_isoformat : Isoformat schemas.ChatUser := fun u => u.

#[export] Instance Conversation_isoformat : Isoformat schemas.Conversation :=
  fun c =>
    {| schemas.participant_ids := schemas.participant_ids c;
       schemas.last_message_preview := schemas.last_message_preview c;
       schemas.updated_at := timeval_isoformat <$> schemas.updated_at c |}.

#[export] Instance Message_isoformat : Isoformat schemas.Message := fun m => m.

(** A normalised document: [_id] replaced by its string under [id]. *)
Record normalized (A : Type) : Type := Normalized { id : string; fields : A }.
Arguments Normalized {A} _ _.
Arguments id {A} _.
Arguments fields {A} _.

Definition normalize {A} `{!Isoformat A} (d : stored A) : normalized A :=
  {| id := str_oid (_id d); fields := isoformat (body d) |}.

(** [to_str_id(doc)]: [None] is returned as it is. *)
Definition to_str_id {A} `{!Isoformat A} (doc : option (stored A))
    : option (normalized A) :=
  match doc with
  | None => None
  | Some d => Some (normalize d)
  end.

(** *** Schemas for requests *)

Record CreateUser : Type := {
  username : string;
  avatar_color : option string
}.

Definition CreateUser_default_avatar_color : option string := Some "#6366F1".

Record StartConversation : Type := {
  user_a : string;
  user_b : string
}.

Record SendMessage : Type := {
  conversation_id : string;
  sender_id : string;
  text : string
}.

(** [payload.model_dump()]. *)
Definition model_dump (payload : CreateUser) : schemas.ChatUser :=
  {| schemas.username := username payload;
     schemas.avatar_color := avatar_color payload |}.

(** *** Users *)

Definition create_user (payload : CreateUser) : M (option (normalized schemas.ChatUser)) :=
  let data := model_dump payload in
  user_id <- create_document db_chatuser data ;;
  o <- lift (ObjectId user_id) ;;
  doc <- find_one db_chatuser (id_is o) ;;
  ret (to_str_id doc).

(** *** Conversations *)

(** The filter [{"participant_ids": {"$all": xs}}]. *)
Definition participants_all (xs : list string) (d : stored schemas.Conversation) : Prop :=
  Forall (fun x => x ∈ schemas.participant_ids (body d)) xs.

#[export] Instance participants_all_dec xs d : Decision (participants_all xs d).
Proof. unfold participants_all. apply _. Defined.

Definition start_conversation (payload : StartConversation)
    : M (option (normalized schemas.Conversation)) :=
  let a := user_a payload in
  let b := user_b payload in
  if decide (a = b) then
    raise (HTTPException 400 "Cannot start conversation with self")
  else
    existing <- find_one db_conversation (participants_all [a; b]) ;;
    match existing with
    | Some e => ret (to_str_id (Some e))
    | None =>
        conv_id <- create_document db_conversation
                     {| schemas.participant_ids := [a; b];
                        schemas.last_message_preview := None;
                        schemas.updated_at := None |} ;;
        o <- lift (ObjectId conv_id) ;;
        doc <- find_one db_conversation (id_is o) ;;
        ret (to_str_id doc)
    end.

(** *** Messages *)

(** The update [{"$set": {"last_message_preview": text, "updated_at": now}}]. *)
Definition set_preview (txt : string) (now : Z) (c : schemas.Conversation)
    : schemas.Conversation :=
  {| schemas.participant_ids := schemas.participant_ids c;
     schemas.last_message_preview := Some txt;
     schemas.updated_at := Some (Datetime now) |}.

Definition send_message (payload : SendMessage)
    : M (option (normalized schemas.Message)) :=
  o <- lift (ObjectId (conversation_id payload)) ;;
  conv <- find_one db_conversation (id_is o) ;;
  match conv with
  | None => raise (HTTPException 404 "Conversation not found")
  | Some conv =>
      if decide (sender_id payload ∉ schemas.participant_ids (body conv)) then
        raise (HTTPException 403 "Sender not in conversation")
      else
        msg_id <- create_document db_message
                    {| schemas.conversation_id := conversation_id payload;
                       schemas.sender_id := sender_id payload;
                       schemas.text := text payload;
                       schemas.delivered := true;
                       schemas.read := false |} ;;
        now <- utcnow ;;
        do update_one db_conversation (fun d => _id d = _id conv)
             (set_preview (text payload) now) ;;
        m <- lift (ObjectId msg_id) ;;
        doc <- find_one db_message (id_is m) ;;
        ret (to_str_id doc)
  end.

(** The filter of [list_messages]: the conversation, and the bound on [_id]
    when one was set. *)
Definition message_filter (cid : string) (lt : option oid)
    (d : stored schemas.Message) : Prop :=
  schemas.conversation_id (body d) = cid /\
  match lt with
  | Some o => (_id d < o)%N
  | None => True
  end.

#[export] Instance message_filter_dec cid lt d : Decision (message_filter cid lt d).
Proof. unfold message_filter. destruct lt; apply _. Defined.

Definition default_limit : Z := 50.

Definition list_messages (conversation_id : string) (limit : Z) (before : option string)
    : M (list (normalized schemas.Message)) :=
  let lt :=
    match before with
    | Some b =>
        if decide (b = "") then None
        else match ObjectId b with
             | Ok k => Some (id_bound k)
             | Raise _ => None
             end
    | None => None
    end in
  found <- find db_message (message_filter conversation_id lt) ;;
  let msgs := cursor_limit limit (sort_id_desc found) in
  let arr := normalize <$> msgs in
  ret (reverse arr).

(** *** The HTTP layer: the status a handler's outcome is answered with *)

Definition http_status {A} (r : result A) : Z :=
  match r with
  | Ok _ => 200
  | Raise (HTTPException status_code _) => status_code
  | Raise (InvalidId _) => 500
  end.

(** *** Clients and the environment *)

Definition empty_world : world := World [] [] [] 0%N 0.

(** Time passing between two requests: the clock does not run backwards. *)
Definition advance (d : N) (w : world) : world :=
  World (chatuser w) (conversation w) (message w) (next_oid w) (clock w + Z.of_N d).

(** Requests to one handler issued one after another; a failed request does
    not stop the following ones. *)
Fixpoint run_all {A B} (h : A -> M B) (ps : list A) (w : world)
    : list (result B) * world :=
  match ps with
  | [] => ([], w)
  | p :: ps' =>
      let '(r, w1) := h p w in
      let '(rs, w2) := run_all h ps' w1 in
      (r :: rs, w2)
  end.

(** A store with one conversation, between alice and bob. *)
Definition alice_bob : world :=
  snd (start_conversation {| user_a := "alice"; user_b := "bob" |} empty_world).

(** The same store five milliseconds later, after alice's first message. *)
Definition alice_bob_hello : world :=
  snd (send_message {| conversation_id := "000000000000000000000000";
                       sender_id := "alice"; text := "hello" |}
         (advance 5 alice_bob)).

(** Five messages of alice, and the store after she sent them in order. *)
Definition five_messages : list SendMessage :=
  (fun t => {| conversation_id := "000000000000000000000000";
               sender_id := "alice"; text := t |})
    <$> ["m1"; "m2"; "m3"; "m4"; "m5"].

Definition thread5 : world := snd (run_all send_message five_messages alice_bob).

(** What [find_one] on an identifier sees. *)
Definition conversation_by_id (w : world) (o : oid) : option (stored schemas.Conversation) :=
  head (filter (fun d => _id d = o) (conversation w)).

(** The messages of a conversation, in natural order. *)
Definition messages_of (w : world) (cid : string) : list (stored schemas.Message) :=
  filter (fun d => schemas.conversation_id (body d) = cid) (message w).

(** What [find_one] on a pair of participants sees. *)
Definition conversation_of_pair (w : world) (a b : string)
    : option (stored schemas.Conversation) :=
  head (filter (participants_all [a; b]) (conversation w)).

(** A conversation both users take part in. *)
Definition between (a b : string) (c : stored schemas.Conversation) : Prop :=
  a ∈ schemas.participant_ids (body c) /\ b ∈ schemas.participant_ids (body c).

(** A request to start the conversation of [a] and [b], in either order. *)
Definition pair_request (a b : string) (p : StartConversation) : Prop :=
  (user_a p = a /\ user_b p = b) \/ (user_a p = b /\ user_b p = a).

(** The store after [start_conversation] found no conversation of the pair. *)
Definition started (a b : string) (w : world) : world :=
  World (chatuser w)
        (conversation w ++
           [Doc (next_oid w)
              {| schemas.participant_ids := [a; b];
                 schemas.last_message_preview := None;
                 schemas.updated_at := None |}])
        (message w)
        (N.succ (next_oid w))
        (clock w).

(** Ascending order of identifiers, the order of creation. *)
Definition id_asc {A} (x y : stored A) : Prop := (_id x <= _id y)%N.

(** A store holding [n] messages of one conversation, identifiers 1 to [n]. *)
Definition busy_thread (n : nat) : world :=
  World [] []
    ((fun i => Doc i {| schemas.conversation_id := "000000000000000000000000";
                        schemas.sender_id := "alice";
                        schemas.text := "ping";
                        schemas.delivered := true;
                        schemas.read := false |}) <$> (N.of_nat <$> seq 1 n))
    (N.of_nat (S n)) 0.

(** The number of documents a request was answered with. *)
Definition page_size {A} (r : result (list A) * world) : option nat :=
  match fst r with
  | Ok out => Some (List.length out)
  | Raise _ => None
  end.

(** The message document that [send_message] inserts under identifier [n]. *)
Definition posted_message (payload : SendMessage) (n : oid) : stored schemas.Message :=
  Doc n {| schemas.conversation_id := conversation_id payload;
           schemas.sender_id := sender_id payload;
           schemas.text := text payload;
           schemas.delivered := true;
           schemas.read := false |}.

(** The store after a successful [send_message]: the message appended under
    a fresh identifier, then the conversation's preview and timestamp set. *)
Definition sent (payload : SendMessage) (conv : stored schemas.Conversation)
    (w : world) : world :=
  World (chatuser w)
        (update_first (fun d => _id d = _id conv)
           (set_preview (text payload) (clock w)) (conversation w))
        (message w ++ [posted_message payload (next_oid w)])
        (N.succ (next_oid w))
        (clock w).

(** The documents of consecutive sends, the first under identifier [n]. *)
Fixpoint posted (n : oid) (payloads : list SendMessage) : list (stored schemas.Message) :=
  match payloads with
  | [] => []
  | p :: ps => posted_message p n :: posted (N.succ n) ps
  end.

(** Every identifier of the collection was allocated before [n]. *)
Definition ids_below {A} (n : oid) (l : list (stored A)) : Prop :=
  Forall (fun d => (_id d < n)%N) l.

(** No stored timestamp lies in the future of the store's clock. *)
Definition clock_sound (w : world) : Prop :=
  forall d t, d ∈ conversation w ->
    schemas.updated_at (body d) = Some (Datetime t) -> t <= clock w.

(** The requests a client can make, and time passing. *)
Inductive request : Type :=
  | CreateUserReq (payload : CreateUser)
  | StartConversationReq (payload : StartConversation)
  | SendMessageReq (payload : SendMessage)
  | ListMessagesReq (conversation_id : string) (limit : Z) (before : option string)
  | Tick (d : N).

Definition serve (r : request) (w : world) : world :=
  match r with
  | CreateUserReq p => snd (create_user p w)
  | StartConversationReq p => snd (start_conversation p w)
  | SendMessageReq p => snd (send_message p w)
  | ListMessagesReq cid limit before => snd (list_messages cid limit before w)
  | Tick d => advance d w
  end.

(** The stores that requests served one after another lead to, from empty
    collections. *)
Inductive reachable : world -> Prop :=
  | reachable_init n t : reachable (World [] [] [] n t)
  | reachable_step r w : reachable w -> reachable (serve r w).

(** At most one conversation per pair of distinct users. *)
Definition pairs_unique (l : list (stored schemas.Conversation)) : Prop :=
  forall i j c1 c2 a b,
    a <> b -> l !! i = Some c1 -> l !! j = Some c2 ->
    between a b c1 -> between a b c2 -> i = j.

Record store_inv (w : world) : Prop := StoreInv {
  inv_chatuser : ids_below (next_oid w) (chatuser w);
  inv_conversation : ids_below (next_oid w) (conversation w);
  inv_message : ids_below (next_oid w) (message w);
  inv_clock : clock_sound w;
  inv_pairs : pairs_unique (conversation w)
}.

(** ** The other handlers of [main.py] *)

(** Modelled from the spec: [get_documents] of [database.py], which lies
    outside the two embedded files.  It returns all the documents of the
    collection, in an order that the store chooses and does not promise:
    [order] stands for that choice. *)
Definition get_documents {A} (order : list (stored A) -> list (stored A))
    (c : collection A) : M (list (stored A)) :=
  fun w => (Ok (order (coll_get c w)), w).

(** An order the store may choose: the same documents, each once. *)
Definition store_order {A} (order : list (stored A) -> list (stored A)) : Prop :=
  forall l, order l ≡ₚ l.

Definition list_users (order : list (stored schemas.ChatUser) -> list (stored schemas.ChatUser))
    : M (list (normalized schemas.ChatUser)) :=
  docs <- get_documents order db_chatuser ;;
  ret (normalize <$> docs).

(** The filter [{"participant_ids": user_id}]: the array holds the value. *)
Definition participates (user_id : string) (d : stored schemas.Conversation) : Prop :=
  user_id ∈ schemas.participant_ids (body d).

#[export] Instance participates_dec user_id d : Decision (participates user_id d).
Proof. unfold participates. apply _. Defined.

(** The store's order on the values of [updated_at]: a missing field comes
    first, then text, then dates; two dates compare as times do (and so do
    two ISO texts). *)
Definition updated_le (x y : option timeval) : Prop :=
  match x, y with
  | None, _ => True
  | Some _, None => False
  | Some (IsoText s), Some (IsoText t) => s <= t
  | Some (IsoText _), Some (Datetime _) => True
  | Some (Datetime _), Some (IsoText _) => False
  | Some (Datetime s), Some (Datetime t) => s <= t
  end.

#[export] Instance updated_le_dec x y : Decision (updated_le x y).
Proof. destruct x as [[s | s] |], y as [[t | t] |]; cbn; apply _. Defined.

(** [cursor.sort("updated_at", -1)]; among documents of equal key the store
    fixes no order, and the sort used here gives one of them. *)
Definition updated_desc (x y : stored schemas.Conversation) : Prop :=
  updated_le (schemas.updated_at (body y)) (schemas.updated_at (body x)).

#[export] Instance updated_desc_dec x y : Decision (updated_desc x y).
Proof. unfold updated_desc. apply _. Defined.

Definition sort_updated_desc (l : list (stored schemas.Conversation))
    : list (stored schemas.Conversation) :=
  merge_sort updated_desc l.

Definition get_conversations (user_id : string)
    : M (list (normalized schemas.Conversation)) :=
  found <- find db_conversation (participates user_id) ;;
  let convs := sort_updated_desc found in
  ret (normalize <$> convs).

(** ** Notions for the properties of whole stores *)

(** The store after [create_user]. *)
Definition registered (payload : CreateUser) (w : world) : world :=
  World (chatuser w ++ [Doc (next_oid w) (model_dump payload)])
        (conversation w) (message w) (N.succ (next_oid w)) (clock w).

(** The conversation document that [start_conversation] inserts. *)
Definition new_conversation (a b : string) (n : oid) : stored schemas.Conversation :=
  Doc n {| schemas.participant_ids := [a; b];
           schemas.last_message_preview := None;
           schemas.updated_at := None |}.

(** Identifiers grow along the collection's order. *)
Definition ids_ascending {A} (l : list (stored A)) : Prop :=
  StronglySorted N.lt (_id <$> l).

(** A conversation of exactly two users, who differ. *)
Definition two_party (c : stored schemas.Conversation) : Prop :=
  exists a b, a <> b /\ schemas.participant_ids (body c) = [a; b].

#[export] Instance exn_eq_dec : EqDecision exn.
Proof. solve_decision. Defined.

#[export] Instance objectid_eq_dec : EqDecision objectid.
Proof. solve_decision. Defined.

#[export] Instance result_eq_dec {A} `{!EqDecision A} : EqDecision (result A).
Proof. solve_decision. Defined.

(** The message was sent under a string that decodes to the identifier. *)
Definition refers_to (o : oid) (m : stored schemas.Message) : Prop :=
  ObjectId (schemas.conversation_id (body m)) = Ok (Full o).

#[export] Instance refers_to_dec o m : Decision (refers_to o m).
Proof. unfold refers_to. apply _. Defined.

(** The text of the last message sent to the conversation, if any. *)
Definition last_text (w : world) (o : oid) : option string :=
  (fun m => schemas.text (body m)) <$> list.last (filter (refers_to o) (message w)).

(** The message belongs to a stored conversation, its sender takes part in
    it, and its flags are the ones set at creation. *)
Definition message_sound (w : world) (m : stored schemas.Message) : Prop :=
  (exists c, c ∈ conversation w /\ refers_to (_id c) m /\
             schemas.sender_id (body m) ∈ schemas.participant_ids (body c)) /\
  schemas.delivered (body m) = true /\
  schemas.read (body m) = false.

(** A conversation carries a timestamp exactly when it carries a preview,
    and the timestamp is a date. *)
Definition stamped (c : stored schemas.Conversation) : Prop :=
  match schemas.updated_at (body c) with
  | None => schemas.last_message_preview (body c) = None
  | Some (Datetime _) => is_Some (schemas.last_message_preview (body c))
  | Some (IsoText _) => False
  end.

Record chat_inv (w : world) : Prop := ChatInv {
  chat_store : store_inv w;
  chat_users_ascending : ids_ascending (chatuser w);
  chat_conversations_ascending : ids_ascending (conversation w);
  chat_messages_ascending : ids_ascending (message w);
  chat_two_party : forall c, c ∈ conversation w -> two_party c;
  chat_stamped : forall c, c ∈ conversation w -> stamped c;
  chat_messages : forall m, m ∈ message w -> message_sound w m;
  chat_preview : forall c, c ∈ conversation w ->
    schemas.last_message_preview (body c) = last_text w (_id c)
}.

(** The last [k] documents of a list. *)
Definition last_n {A} (k : nat) (l : list A) : list A :=
  drop (List.length l - k) l.

(** The messages that [list_messages] selects from, in the store's order. *)
Definition thread (w : world) (cid : string) (before : option oid)
    : list (stored schemas.Message) :=
  filter (message_filter cid before) (message w).

(** The bound on [_id] that [list_messages] derives from [before]. *)
Definition cursor (before : option string) : option oid :=
  match before with
  | Some b =>
      if decide (b = "") then None
      else match ObjectId b with
           | Ok k => Some (id_bound k)
           | Raise _ => None
           end
  | None => None
  end.

(** A store whose one conversation has an identifier written with a letter. *)
Definition lettered : world :=
  snd (start_conversation {| user_a := "alice"; user_b := "bob" |}
         (World [] [] [] 10%N 0)).

(** * Properties *)

#[global] Arguments ObjectId : simpl never.
#[global] Arguments str_oid : simpl never.

Section Basics.

Lemma bind_Ok {A B} (m : M A) (k : A -> M B) w a w' :
  m w = (Ok a, w') -> bind m k w = k a w'.
Proof. intros H. unfold bind. now rewrite H. Qed.

Lemma bind_Raise {A B} (m : M A) (k : A -> M B) w e w' :
  m w = (Raise e, w') -> bind m k w = (Raise e, w').
Proof. intros H. unfold bind. now rewrite H. Qed.

Lemma head_filter_Some {A} (P : A -> Prop) `{!forall x, Decision (P x)} l x :
  head (filter P l) = Some x -> x ∈ l /\ P x.
Proof.
  intros Hhd. apply head_Some_elem_of in Hhd.
  now apply list_elem_of_filter in Hhd as [HP Hin].
Qed.

Lemma head_filter_None {A} (P : A -> Prop) `{!forall x, Decision (P x)} l :
  head (filter P l) = None -> forall x, x ∈ l -> ~ P x.
Proof.
  intros Hhd x Hin HP.
  assert (Hx : x ∈ filter P l) by (apply list_elem_of_filter; auto).
  destruct (filter P l); [inversion Hx | discriminate].
Qed.

Lemma head_filter_is_Some {A} (P : A -> Prop) `{!forall x, Decision (P x)} l x :
  x ∈ l -> P x -> is_Some (head (filter P l)).
Proof.
  intros Hin HP.
  destruct (head (filter P l)) eqn:E; [eauto |].
  exfalso. eapply head_filter_None; eauto.
Qed.

Lemma filter_id_is {A} (o : oid) (l : list (stored A)) :
  filter (id_is (Full o)) l = filter (fun d => _id d = o) l.
Proof. reflexivity. Qed.

Lemma filter_id_is_short {A} bs (l : list (stored A)) :
  filter (id_is (Short bs)) l = [].
Proof.
  induction l as [| d l IH]; [reflexivity |].
  rewrite filter_cons. destruct (decide (id_is (Short bs) d)) as [[] | _]. exact IH.
Qed.

End Basics.

Section Codec.

Lemma hex_digit_char d : (d < 16)%N -> hex_digit (hex_char d) = Some d.
Proof.
  intros Hd.
  destruct d as [| p]; [reflexivity |].
  do 4 (try (destruct p as [p | p |]; try reflexivity)); lia.
Qed.

Lemma length_hexlify width n acc :
  String.length (hexlify width n acc) = (width + String.length acc)%nat.
Proof.
  revert n acc. induction width as [| width IH]; intros n acc; [reflexivity |].
  cbn [hexlify]. rewrite IH. cbn. lia.
Qed.

Lemma is_space_hex_char d : (d < 16)%N -> is_space (hex_char d) = false.
Proof.
  intros Hd.
  destruct d as [| p]; [reflexivity |].
  do 4 (try (destruct p as [p | p |]; try reflexivity)); lia.
Qed.

Lemma from_bytes_snoc bs b : from_bytes (bs ++ [b]) = (256 * from_bytes bs + b)%N.
Proof. unfold from_bytes. now rewrite fold_left_app. Qed.

(** Two digits for each byte: what [hexlify] writes, [fromhex] reads back. *)
Lemma fromhex_hexlify k n acc bs :
  fromhex acc = Some bs ->
  exists pre,
    fromhex (hexlify (2 * k) n acc) = Some (pre ++ bs) /\
    List.length pre = k /\
    from_bytes pre = (n mod 256 ^ N.of_nat k)%N.
Proof.
  revert n acc bs. induction k as [| k IH]; intros n acc bs Hacc.
  - exists []. cbn [Nat.mul hexlify app List.length]. split; [exact Hacc |].
    split; [reflexivity |]. change (256 ^ N.of_nat 0)%N with 1%N.
    now rewrite N.mod_1_r.
  - replace (2 * S k)%nat with (S (S (2 * k))) by lia. cbn [hexlify].
    set (lo := (n mod 16)%N). set (hi := ((n / 16) mod 16)%N).
    assert (Hlo : (lo < 16)%N) by (apply N.mod_lt; lia).
    assert (Hhi : (hi < 16)%N) by (apply N.mod_lt; lia).
    destruct (IH (n / 16 / 16)%N
                (String (hex_char hi) (String (hex_char lo) acc))
                ((16 * hi + lo)%N :: bs)) as (pre & Hpre & Hlen & Hval).
    { cbn [fromhex]. rewrite (is_space_hex_char _ Hhi).
      rewrite (hex_digit_char _ Hhi), (hex_digit_char _ Hlo), Hacc. reflexivity. }
    exists (pre ++ [(16 * hi + lo)%N]).
    split; [now rewrite <- app_assoc |].
    split; [rewrite length_app; cbn; lia |].
    rewrite from_bytes_snoc, Hval, Nat2N.inj_succ, N.pow_succ_r'.
    rewrite (N.Div0.mod_mul_r n 256 (256 ^ N.of_nat k)).
    rewrite N.Div0.div_div. change (16 * 16)%N with 256%N.
    unfold hi, lo.
    rewrite (N.Div0.mod_mul_r n 16 16 : (n mod 256 = _)%N). lia.
Qed.

(** Decoding the string form of an identifier gives the identifier back. *)
Lemma ObjectId_str_oid o : (o < oid_bound)%N -> ObjectId (str_oid o) = Ok (Full o).
Proof.
  intros Ho. unfold ObjectId, str_oid.
  rewrite length_hexlify. cbn [String.length Nat.add Nat.eqb].
  destruct (fromhex_hexlify 12 o EmptyString [] eq_refl) as (pre & Hpre & Hlen & Hval).
  change (2 * 12)%nat with 24%nat in Hpre. rewrite Hpre, app_nil_r.
  unfold of_binary. rewrite Hlen. cbn [Nat.eqb].
  rewrite Hval. change (256 ^ N.of_nat 12)%N with oid_bound.
  now rewrite N.mod_small.
Qed.

Lemma str_oid_nonempty o : str_oid o <> "".
Proof.
  intros Heq. apply (f_equal String.length) in Heq.
  unfold str_oid in Heq. rewrite length_hexlify in Heq. discriminate.
Qed.

End Codec.

Section StartConversation.

(** C5.  Starting a conversation with oneself fails with the 400 error
    "Cannot start conversation with self" in every store state; the store
    is left as it was, so no Conversation is inserted, and nothing is
    returned. *)
Theorem start_conversation_self (payload : StartConversation) (w : world) :
  user_a payload = user_b payload ->
  start_conversation payload w =
    (Raise (HTTPException 400 "Cannot start conversation with self"), w) /\
  http_status (fst (start_conversation payload w)) = 400.
Proof.
  intros Heq. unfold start_conversation.
  destruct (decide (user_a payload = user_b payload)) as [_ | Hne]; [| contradiction].
  split; reflexivity.
Qed.

Lemma start_conversation_self_witness :
  let p := {| user_a := "alice"; user_b := "alice" |} in
  let w := World [] [Doc 7%N {| schemas.participant_ids := ["alice"; "bob"];
                                schemas.last_message_preview := None;
                                schemas.updated_at := None |}] [] 8%N 0 in
  start_conversation p w =
    (Raise (HTTPException 400 "Cannot start conversation with self"), w) /\
  http_status (fst (start_conversation p w)) = 400.
Proof. intros p w. apply (start_conversation_self p w). reflexivity. Defined.

Lemma participants_all_between a b c :
  participants_all [a; b] c <-> between a b c.
Proof.
  unfold participants_all, between. split.
  - intros Hall. inversion Hall as [| ? ? Ha Hall']. inversion Hall'. now split.
  - intros [Ha Hb]. repeat constructor; assumption.
Qed.

Lemma conversation_of_pair_sym w a b :
  conversation_of_pair w a b = conversation_of_pair w b a.
Proof.
  unfold conversation_of_pair. f_equal. apply list_filter_iff. intros c.
  rewrite !participants_all_between. unfold between. tauto.
Qed.

Lemma start_conversation_existing payload w e :
  user_a payload <> user_b payload ->
  conversation_of_pair w (user_a payload) (user_b payload) = Some e ->
  start_conversation payload w = (Ok (Some (normalize e)), w).
Proof.
  intros Hne Hfound. unfold start_conversation.
  destruct (decide (user_a payload = user_b payload)); [contradiction |].
  erewrite bind_Ok by reflexivity.
  cbn. unfold conversation_of_pair in Hfound. now rewrite Hfound.
Qed.

Lemma start_conversation_new payload w :
  user_a payload <> user_b payload ->
  conversation_of_pair w (user_a payload) (user_b payload) = None ->
  snd (start_conversation payload w) = started (user_a payload) (user_b payload) w.
Proof.
  intros Hne Hnone. unfold start_conversation.
  destruct (decide (user_a payload = user_b payload)); [contradiction |].
  erewrite bind_Ok by reflexivity.
  cbn. unfold conversation_of_pair in Hnone. rewrite Hnone.
  unfold bind, create_document, bind, fresh_oid, lift, find_one, ret. cbn.
  unfold started. destruct (ObjectId (str_oid (next_oid w))); reflexivity.
Qed.

(** C2.  Once a conversation of two distinct users exists, every later
    [start_conversation] for the pair, in either order of the arguments,
    returns the same conversation, one of the pair that is in the store,
    and leaves the store as it was: no document is inserted. *)
Theorem start_conversation_idempotent (a b : string) (w : world) :
  a <> b ->
  (exists c, c ∈ conversation w /\ between a b c) ->
  exists c0,
    c0 ∈ conversation w /\ between a b c0 /\
    forall calls,
      Forall (pair_request a b) calls ->
      run_all start_conversation calls w =
        ((fun _ => Ok (Some (normalize c0))) <$> calls, w).
Proof.
  intros Hne (c & Hin & Hc).
  destruct (head_filter_is_Some (participants_all [a; b]) (conversation w) c)
    as [c0 Hc0]; [exact Hin | now apply participants_all_between |].
  exists c0.
  destruct (head_filter_Some _ _ _ Hc0) as [Hin0 Hall0].
  apply participants_all_between in Hall0.
  split; [exact Hin0 |]. split; [exact Hall0 |].
  intros calls Hcalls.
  induction Hcalls as [| p calls Hp _ IH]; [reflexivity |].
  cbn [run_all fmap list_fmap].
  assert (Hrun : start_conversation p w = (Ok (Some (normalize c0)), w)).
  { apply start_conversation_existing.
    - destruct Hp as [[-> ->] | [-> ->]]; congruence.
    - destruct Hp as [[-> ->] | [-> ->]]; [exact Hc0 |].
      rewrite conversation_of_pair_sym. exact Hc0. }
  rewrite Hrun, IH. reflexivity.
Qed.

Lemma start_conversation_idempotent_witness :
  exists c0,
    c0 ∈ conversation alice_bob /\ between "alice" "bob" c0 /\
    forall calls,
      Forall (pair_request "alice" "bob") calls ->
      run_all start_conversation calls alice_bob =
        ((fun _ => Ok (Some (normalize c0))) <$> calls, alice_bob).
Proof.
  apply (start_conversation_idempotent "alice" "bob" alice_bob).
  - discriminate.
  - eexists. split; [apply list_elem_of_here |].
    split; apply (bool_decide_unpack _); vm_compute; exact I.
Defined.

End StartConversation.

Section SendMessage.

Lemma send_message_invalid_id payload w e :
  ObjectId (conversation_id payload) = Raise e ->
  send_message payload w = (Raise e, w).
Proof.
  intros Hdec. unfold send_message.
  apply bind_Raise. unfold lift. now rewrite Hdec.
Qed.

Lemma send_message_not_found payload w o :
  ObjectId (conversation_id payload) = Ok (Full o) ->
  conversation_by_id w o = None ->
  send_message payload w = (Raise (HTTPException 404 "Conversation not found"), w).
Proof.
  intros Hdec Hnone. unfold send_message.
  erewrite bind_Ok by (unfold lift; now rewrite Hdec).
  erewrite bind_Ok by reflexivity.
  cbn. rewrite filter_id_is. unfold conversation_by_id in Hnone. now rewrite Hnone.
Qed.

Lemma send_message_short payload w bs :
  ObjectId (conversation_id payload) = Ok (Short bs) ->
  send_message payload w = (Raise (HTTPException 404 "Conversation not found"), w).
Proof.
  intros Hdec. unfold send_message.
  erewrite bind_Ok by (unfold lift; now rewrite Hdec).
  erewrite bind_Ok by reflexivity.
  cbn. now rewrite filter_id_is_short.
Qed.

Lemma send_message_found payload w o conv :
  ObjectId (conversation_id payload) = Ok (Full o) ->
  conversation_by_id w o = Some conv ->
  sender_id payload ∈ schemas.participant_ids (body conv) ->
  send_message payload w =
    match ObjectId (str_oid (next_oid w)) with
    | Ok m =>
        (Ok (to_str_id (head (filter (id_is m)
                                (message (sent payload conv w))))),
         sent payload conv w)
    | Raise e => (Raise e, sent payload conv w)
    end.
Proof.
  intros Hdec Hconv Hin. unfold send_message.
  erewrite bind_Ok by (unfold lift; now rewrite Hdec).
  erewrite bind_Ok by reflexivity.
  cbn. rewrite filter_id_is. unfold conversation_by_id in Hconv. rewrite Hconv.
  destruct (decide (sender_id payload ∉ schemas.participant_ids (body conv)))
    as [Hnot | _]; [contradiction |].
  unfold bind, create_document, bind, fresh_oid, utcnow, update_one, lift, find_one, ret.
  cbn. unfold sent.
  destruct (ObjectId (str_oid (next_oid w))); reflexivity.
Qed.

Lemma send_message_forbidden_step payload w o conv :
  ObjectId (conversation_id payload) = Ok (Full o) ->
  conversation_by_id w o = Some conv ->
  sender_id payload ∉ schemas.participant_ids (body conv) ->
  send_message payload w =
    (Raise (HTTPException 403 "Sender not in conversation"), w).
Proof.
  intros Hdec Hconv Hnot. unfold send_message.
  erewrite bind_Ok by (unfold lift; now rewrite Hdec).
  erewrite bind_Ok by reflexivity.
  cbn. rewrite filter_id_is. unfold conversation_by_id in Hconv. rewrite Hconv.
  destruct (decide (sender_id payload ∉ schemas.participant_ids (body conv)));
    [reflexivity | contradiction].
Qed.

(** C4.  When the conversation exists and the sender is not one of its
    participants, the call fails with the 403 error; the store is left as
    it was, so no Message is inserted and the Conversation is unchanged. *)
Theorem send_message_forbidden payload w o conv :
  ObjectId (conversation_id payload) = Ok (Full o) ->
  conversation_by_id w o = Some conv ->
  sender_id payload ∉ schemas.participant_ids (body conv) ->
  send_message payload w =
    (Raise (HTTPException 403 "Sender not in conversation"), w) /\
  http_status (fst (send_message payload w)) = 403.
Proof.
  intros Hdec Hconv Hnot.
  rewrite (send_message_forbidden_step _ _ _ _ Hdec Hconv Hnot).
  split; reflexivity.
Qed.

Lemma send_message_forbidden_witness :
  let payload := {| conversation_id := "000000000000000000000000";
                    sender_id := "mallory"; text := "hi" |} in
  send_message payload alice_bob =
    (Raise (HTTPException 403 "Sender not in conversation"), alice_bob) /\
  http_status (fst (send_message payload alice_bob)) = 403.
Proof.
  intros payload.
  apply (send_message_forbidden payload alice_bob 0%N
           (Doc 0%N {| schemas.participant_ids := ["alice"; "bob"];
                       schemas.last_message_preview := None;
                       schemas.updated_at := None |})).
  - reflexivity.
  - reflexivity.
  - apply (bool_decide_unpack _). vm_compute. exact I.
Defined.

(** C1.  On an identifier that does not decode, [send_message] does not
    answer 404: [ObjectId] raises [InvalidId] before the lookup, nothing
    catches it, and the request ends as a server error (500). *)
Theorem send_message_malformed_id_raises (sender txt : string) (w : world) :
  let payload := {| conversation_id := "not-a-real-id";
                    sender_id := sender; text := txt |} in
  send_message payload w = (Raise (InvalidId "not-a-real-id"), w) /\
  http_status (fst (send_message payload w)) = 500 /\
  http_status (fst (send_message payload w)) <> 404.
Proof.
  intros payload.
  assert (Hrun : send_message payload w = (Raise (InvalidId "not-a-real-id"), w))
    by (apply send_message_invalid_id; reflexivity).
  rewrite Hrun. repeat split. discriminate.
Qed.

Lemma send_message_Ok_inv payload w r w' :
  send_message payload w = (Ok r, w') ->
  exists o conv,
    ObjectId (conversation_id payload) = Ok (Full o) /\
    conversation_by_id w o = Some conv /\
    sender_id payload ∈ schemas.participant_ids (body conv) /\
    w' = sent payload conv w.
Proof.
  intros Hrun.
  destruct (ObjectId (conversation_id payload)) as [[o | bs] | e] eqn:Hdec.
  3:{ rewrite (send_message_invalid_id _ _ _ Hdec) in Hrun. discriminate. }
  2:{ rewrite (send_message_short _ _ _ Hdec) in Hrun. discriminate. }
  destruct (conversation_by_id w o) as [conv |] eqn:Hconv.
  2:{ rewrite (send_message_not_found _ _ _ Hdec Hconv) in Hrun. discriminate. }
  destruct (decide (sender_id payload ∈ schemas.participant_ids (body conv)))
    as [Hin | Hnot].
  2:{ rewrite (send_message_forbidden_step _ _ _ _ Hdec Hconv Hnot) in Hrun.
      discriminate. }
  exists o, conv. repeat split; auto.
  rewrite (send_message_found _ _ _ _ Hdec Hconv Hin) in Hrun.
  destruct (ObjectId (str_oid (next_oid w))); congruence.
Qed.

Lemma update_first_by_id {A} (f : A -> A) (l : list (stored A)) o c :
  head (filter (fun d => _id d = o) l) = Some c ->
  head (filter (fun d => _id d = o) (update_first (fun d => _id d = o) f l))
    = Some (Doc o (f (body c))).
Proof.
  induction l as [| d l IH]; [discriminate |].
  rewrite filter_cons. cbn [update_first].
  destruct (decide (_id d = o)) as [Heq | Hne].
  - intros [= <-]. rewrite filter_cons. cbn [_id].
    destruct (decide (_id d = o)); [| contradiction]. cbn. now rewrite Heq.
  - intros Hhd. rewrite filter_cons.
    destruct (decide (_id d = o)); [contradiction | auto].
Qed.

(** C6.  After a successful [send_message] the owning conversation carries
    the sent text as its preview and the time of the call as [updated_at],
    which is not older than the timestamp it had before; its [_id] and
    [participant_ids] are the ones it had. *)
Theorem send_message_updates_preview payload w r w' :
  clock_sound w ->
  send_message payload w = (Ok r, w') ->
  exists o c c',
    ObjectId (conversation_id payload) = Ok (Full o) /\
    conversation_by_id w o = Some c /\
    conversation_by_id w' o = Some c' /\
    schemas.last_message_preview (body c') = Some (text payload) /\
    schemas.updated_at (body c') = Some (Datetime (clock w)) /\
    (forall t t', schemas.updated_at (body c) = Some (Datetime t) ->
                  schemas.updated_at (body c') = Some (Datetime t') -> t <= t') /\
    _id c' = _id c /\
    schemas.participant_ids (body c') = schemas.participant_ids (body c).
Proof.
  intros Hclock Hrun.
  destruct (send_message_Ok_inv _ _ _ _ Hrun) as (o & c & Hdec & Hconv & Hin & ->).
  destruct (head_filter_Some _ _ _ Hconv) as [Hmem Hid].
  exists o, c, (Doc o (set_preview (text payload) (clock w) (body c))).
  repeat split; auto.
  - unfold conversation_by_id, sent. cbn. rewrite Hid.
    apply update_first_by_id. exact Hconv.
  - cbn. intros t t' Hold [= <-]. eapply Hclock; eauto.
Qed.

Lemma find_fresh {A} (l : list (stored A)) n x :
  ids_below n l ->
  head (filter (fun d => _id d = n) (l ++ [Doc n x])) = Some (Doc n x).
Proof.
  intros Hbelow. rewrite list.filter_app.
  assert (Hnone : filter (fun d => _id d = n) l = []).
  { induction Hbelow as [| d l Hd _ IH]; [reflexivity |].
    rewrite filter_cons. destruct (decide (_id d = n)); [lia | exact IH]. }
  rewrite Hnone, filter_cons. cbn.
  destruct (decide (n = n)); [reflexivity | contradiction].
Qed.

Lemma send_message_Ok payload w o conv :
  ObjectId (conversation_id payload) = Ok (Full o) ->
  conversation_by_id w o = Some conv ->
  sender_id payload ∈ schemas.participant_ids (body conv) ->
  ids_below (next_oid w) (message w) ->
  (next_oid w < oid_bound)%N ->
  send_message payload w =
    (Ok (Some (normalize (posted_message payload (next_oid w)))),
     sent payload conv w).
Proof.
  intros Hdec Hconv Hin Hbelow Hbound.
  rewrite (send_message_found _ _ _ _ Hdec Hconv Hin).
  rewrite ObjectId_str_oid by exact Hbound.
  unfold sent at 1, posted_message at 1. cbn [message].
  rewrite filter_id_is. now rewrite find_fresh.
Qed.

Lemma sent_conversation_by_id payload w conv :
  conversation_by_id w (_id conv) = Some conv ->
  conversation_by_id (sent payload conv w) (_id conv)
    = Some (Doc (_id conv) (set_preview (text payload) (clock w) (body conv))).
Proof.
  intros Hconv. unfold conversation_by_id, sent. cbn [conversation].
  now apply update_first_by_id.
Qed.

Lemma run_all_send (payloads : list SendMessage) cid sender w o conv :
  Forall (fun p => conversation_id p = cid /\ sender_id p = sender) payloads ->
  ObjectId cid = Ok (Full o) ->
  conversation_by_id w o = Some conv ->
  sender ∈ schemas.participant_ids (body conv) ->
  ids_below (next_oid w) (message w) ->
  (next_oid w + N.of_nat (List.length payloads) <= oid_bound)%N ->
  exists w',
    run_all send_message payloads w =
      ((fun d => Ok (Some (normalize d))) <$> posted (next_oid w) payloads, w') /\
    message w' = message w ++ posted (next_oid w) payloads.
Proof.
  intros Hall Hdec. revert w conv.
  induction Hall as [| p ps [Hcid Hsender] _ IH]; intros w conv Hconv Hin Hbelow Hbound.
  - exists w. split; [reflexivity |]. cbn. now rewrite app_nil_r.
  - cbn [List.length] in Hbound.
    destruct (head_filter_Some _ _ _ Hconv) as [_ Hid]. subst o.
    assert (Hstep := send_message_Ok p w (_id conv) conv).
    rewrite Hcid, Hsender in Hstep.
    specialize (Hstep Hdec Hconv Hin Hbelow ltac:(lia)).
    destruct (IH (sent p conv w) _ (sent_conversation_by_id p w conv Hconv))
      as (w' & Hrun & Hmsgs).
    + exact Hin.
    + unfold sent, ids_below. cbn [message next_oid].
      apply Forall_app. split.
      * revert Hbelow. apply List.Forall_impl. intros d Hd. lia.
      * repeat constructor. cbn. lia.
    + unfold sent. cbn [next_oid]. lia.
    + exists w'. cbn [run_all posted fmap list_fmap].
      rewrite Hstep, Hrun. split; [reflexivity |].
      rewrite Hmsgs. unfold sent. cbn [message next_oid].
      now rewrite <- app_assoc.
Qed.

Lemma send_message_world payload w :
  snd (send_message payload w) = w \/
  exists conv, conv ∈ conversation w /\ snd (send_message payload w) = sent payload conv w.
Proof.
  destruct (ObjectId (conversation_id payload)) as [[o | bs] | e] eqn:Hdec.
  3:{ left. now rewrite (send_message_invalid_id _ _ _ Hdec). }
  2:{ left. now rewrite (send_message_short _ _ _ Hdec). }
  destruct (conversation_by_id w o) as [conv |] eqn:Hconv.
  2:{ left. now rewrite (send_message_not_found _ _ _ Hdec Hconv). }
  destruct (decide (sender_id payload ∈ schemas.participant_ids (body conv)))
    as [Hin | Hnot].
  2:{ left. now rewrite (send_message_forbidden_step _ _ _ _ Hdec Hconv Hnot). }
  right. exists conv. split; [now apply (head_filter_Some _ _ _ Hconv) |].
  rewrite (send_message_found _ _ _ _ Hdec Hconv Hin).
  destruct (ObjectId (str_oid (next_oid w))); reflexivity.
Qed.

Lemma send_message_updates_preview_witness :
  let payload := {| conversation_id := "000000000000000000000000";
                    sender_id := "bob"; text := "hi alice" |} in
  let w := advance 3 alice_bob_hello in
  exists o c c',
    ObjectId (conversation_id payload) = Ok (Full o) /\
    conversation_by_id w o = Some c /\
    conversation_by_id (snd (send_message payload w)) o = Some c' /\
    schemas.last_message_preview (body c') = Some "hi alice" /\
    schemas.updated_at (body c') = Some (Datetime 8) /\
    (forall t t', schemas.updated_at (body c) = Some (Datetime t) ->
                  schemas.updated_at (body c') = Some (Datetime t') -> t <= t') /\
    _id c' = _id c /\
    schemas.participant_ids (body c') = schemas.participant_ids (body c).
Proof.
  intros payload w.
  eapply (send_message_updates_preview payload w _ (snd (send_message payload w))).
  - intros d t Hin. vm_compute in Hin.
    apply list_elem_of_singleton in Hin. subst d.
    intros [= <-]. vm_compute. discriminate.
  - vm_compute. reflexivity.
Defined.

Lemma send_message_inserts payload w o conv :
  ObjectId (conversation_id payload) = Ok (Full o) ->
  conversation_by_id w o = Some conv ->
  sender_id payload ∈ schemas.participant_ids (body conv) ->
  message (snd (send_message payload w))
    = message w ++ [posted_message payload (next_oid w)].
Proof.
  intros Hdec Hconv Hin.
  rewrite (send_message_found _ _ _ _ Hdec Hconv Hin).
  destruct (ObjectId (str_oid (next_oid w))); reflexivity.
Qed.

(** C9.  The request model of [send_message] puts no bound on the length
    of [text]: an empty text, which the [Message] schema rules out, is
    inserted and returned like any other. *)
Theorem send_message_accepts_empty_text :
  (let payload := {| conversation_id := "000000000000000000000000";
                     sender_id := "alice"; text := "" |} in
   let stored_msg :=
     {| schemas.conversation_id := "000000000000000000000000";
        schemas.sender_id := "alice"; schemas.text := "";
        schemas.delivered := true; schemas.read := false |} in
   fst (send_message payload alice_bob)
     = Ok (Some (Normalized "000000000000000000000001" stored_msg)) /\
   message (snd (send_message payload alice_bob)) = [Doc 1%N stored_msg] /\
   http_status (fst (send_message payload alice_bob)) = 200 /\
   schemas.Message_valid stored_msg = false).
Proof. repeat split; vm_compute; reflexivity. Qed.

End SendMessage.

Section CreateUser.

Lemma create_user_world payload w :
  snd (create_user payload w)
    = World (chatuser w ++ [Doc (next_oid w) (model_dump payload)])
            (conversation w) (message w) (N.succ (next_oid w)) (clock w).
Proof.
  unfold create_user, bind, create_document, bind, fresh_oid, lift, find_one, ret.
  cbn. destruct (ObjectId (str_oid (next_oid w))); reflexivity.
Qed.

Lemma create_user_inserts payload w :
  chatuser (snd (create_user payload w))
    = chatuser w ++ [Doc (next_oid w) (model_dump payload)].
Proof.
  unfold create_user, bind, create_document, bind, fresh_oid, lift, find_one, ret.
  cbn. destruct (ObjectId (str_oid (next_oid w))); reflexivity.
Qed.

(** C8.  The request model of [create_user] puts no bound on the length of
    [username]: every request inserts its User, and a name of one
    character, or of twenty-five, which the [ChatUser] schema rules out,
    is inserted and returned like any other. *)
Theorem create_user_accepts_short_username :
  (forall payload w,
     chatuser (snd (create_user payload w))
       = chatuser w ++ [Doc (next_oid w) (model_dump payload)]) /\
  (let payload := {| username := "a";
                     avatar_color := CreateUser_default_avatar_color |} in
   let stored_user :=
     {| schemas.username := "a"; schemas.avatar_color := Some "#6366F1" |} in
   create_user payload empty_world
     = (Ok (Some (Normalized "000000000000000000000000" stored_user)),
        World [Doc 0%N stored_user] [] [] 1%N 0) /\
   http_status (fst (create_user payload empty_world)) = 200 /\
   schemas.ChatUser_valid stored_user = false) /\
  (let payload := {| username := "abcdefghijklmnopqrstuvwxy";
                     avatar_color := CreateUser_default_avatar_color |} in
   chatuser (snd (create_user payload empty_world))
     = [Doc 0%N (model_dump payload)] /\
   http_status (fst (create_user payload empty_world)) = 200 /\
   schemas.ChatUser_valid (model_dump payload) = false).
Proof.
  split; [exact create_user_inserts |].
  split; repeat split; vm_compute; reflexivity.
Qed.

End CreateUser.

Section ListMessages.

Lemma list_messages_unfold cid limit before w :
  exists lt,
    list_messages cid limit before w =
      (Ok (reverse (normalize <$>
             cursor_limit limit
               (sort_id_desc (filter (message_filter cid lt) (message w))))), w) /\
    lt = match before with
         | Some b => if decide (b = "") then None
                     else match ObjectId b with Ok k => Some (id_bound k) | Raise _ => None end
         | None => None
         end.
Proof. eexists. split; reflexivity. Qed.

Lemma message_filter_None cid w :
  filter (message_filter cid None) (message w) = messages_of w cid.
Proof.
  unfold messages_of. apply list_filter_iff. intros d.
  unfold message_filter. tauto.
Qed.

#[local] Instance id_desc_trans {A} : Transitive (@id_desc A).
Proof. intros x y z. unfold id_desc. lia. Qed.

#[local] Instance id_desc_total {A} : Total (@id_desc A).
Proof. intros x y. unfold id_desc. lia. Qed.

#[local] Instance id_asc_trans {A} : Transitive (@id_asc A).
Proof. intros x y z. unfold id_asc. lia. Qed.

Lemma cursor_limit_sorted {A} (R : relation A) n l :
  StronglySorted R l -> StronglySorted R (cursor_limit n l).
Proof.
  intros Hs. unfold cursor_limit. destruct (n =? 0); [exact Hs |].
  rewrite <- (take_drop (Z.abs_nat n) l) in Hs.
  now apply StronglySorted_app_1_l in Hs.
Qed.

Lemma cursor_limit_subseteq {A} n (l : list A) : cursor_limit n l ⊆ l.
Proof.
  unfold cursor_limit. destruct (n =? 0); [reflexivity | apply subseteq_take].
Qed.

Lemma page_ascending {A} n (l : list (stored A)) :
  StronglySorted id_asc (reverse (cursor_limit n (sort_id_desc l))).
Proof.
  apply Sorted_StronglySorted; [apply _ |].
  apply (Sorted_reverse id_desc).
  apply StronglySorted_Sorted, cursor_limit_sorted.
  apply StronglySorted_merge_sort; apply _.
Qed.

(** C7.  A [before] value that does not decode is ignored: the call does
    not fail and returns what the same call without [before] returns. *)
Theorem list_messages_undecodable_before cid limit b e w :
  ObjectId b = Raise e ->
  list_messages cid limit (Some b) w = list_messages cid limit None w /\
  exists out, list_messages cid limit (Some b) w = (Ok out, w).
Proof.
  intros Hdec.
  destruct (list_messages_unfold cid limit (Some b) w) as (lt & Hrun & Hlt).
  rewrite Hdec in Hlt.
  assert (lt = None) as -> by (destruct (decide (b = "")); exact Hlt).
  split; [exact Hrun | eauto].
Qed.

Lemma list_messages_world cid limit before w :
  snd (list_messages cid limit before w) = w.
Proof.
  destruct (list_messages_unfold cid limit before w) as (lt & -> & _).
  reflexivity.
Qed.

Lemma list_messages_undecodable_before_witness :
  ObjectId "not-a-real-id" = Raise (InvalidId "not-a-real-id") /\
  list_messages "000000000000000000000000" 50 (Some "not-a-real-id") (busy_thread 3)
    = list_messages "000000000000000000000000" 50 None (busy_thread 3) /\
  exists out,
    list_messages "000000000000000000000000" 50 (Some "not-a-real-id") (busy_thread 3)
      = (Ok out, busy_thread 3).
Proof.
  split; [reflexivity |].
  apply (list_messages_undecodable_before _ _ _ (InvalidId "not-a-real-id")).
  reflexivity.
Defined.

(** A [before] of 24 characters with blanks around 22 digits does decode, to
    11 bytes: the filter is kept, and no stored identifier is below it.  As
    a conversation id the same string matches no conversation. *)
Example list_messages_blank_cursor :
  let blank := " 0000000000000000000000 " in
  ObjectId blank = Ok (Short (replicate 11 0%N)) /\
  fst (list_messages "000000000000000000000000" 2 (Some blank) thread5) = Ok [] /\
  fst (send_message {| conversation_id := blank; sender_id := "alice"; text := "hi" |}
         alice_bob)
    = Raise (HTTPException 404 "Conversation not found").
Proof. repeat split; vm_compute; reflexivity. Qed.

(** C10.  [limit] is passed to the store as it comes: with [limit = 0]
    the call returns every message of the conversation, not an empty page,
    so more than the default page of 50 can come back. *)
Theorem list_messages_limit_zero :
  (forall cid w,
     exists out,
       list_messages cid 0 None w = (Ok out, w) /\
       out ≡ₚ normalize <$> messages_of w cid /\
       List.length out = List.length (messages_of w cid)) /\
  (let cid := "000000000000000000000000" in
   let w := busy_thread 51 in
   page_size (list_messages cid 0 None w) = Some 51%nat /\
   page_size (list_messages cid default_limit None w) = Some 50%nat).
Proof.
  split.
  - intros cid w.
    destruct (list_messages_unfold cid 0 None w) as (lt & Hrun & ->).
    rewrite message_filter_None in Hrun. cbn [cursor_limit Z.eqb] in Hrun.
    eexists. split; [exact Hrun |].
    assert (Hperm : reverse (normalize <$> sort_id_desc (messages_of w cid))
                      ≡ₚ normalize <$> messages_of w cid).
    { rewrite reverse_Permutation. apply fmap_Permutation.
      apply merge_sort_Permutation. }
    split; [exact Hperm |].
    rewrite Hperm. now rewrite !length_fmap.
  - split; vm_compute; reflexivity.
Qed.

Lemma list_messages_ascending cid limit before w :
  exists page,
    list_messages cid limit before w = (Ok (normalize <$> page), w) /\
    StronglySorted id_asc page /\
    page ⊆ messages_of w cid.
Proof.
  destruct (list_messages_unfold cid limit before w) as (lt & Hrun & _).
  rewrite <- fmap_reverse in Hrun.
  eexists. split; [exact Hrun |]. split; [apply page_ascending |].
  intros d Hd. apply elem_of_reverse, cursor_limit_subseteq in Hd.
  unfold sort_id_desc in Hd. rewrite merge_sort_Permutation in Hd.
  apply list_elem_of_filter in Hd as [[Hcid _] Hd].
  apply list_elem_of_filter. now split.
Qed.

(** The newest document comes first in the descending sort. *)
Lemma sorted_desc_head {A} (s l : list (stored A)) x :
  StronglySorted id_desc s ->
  s ≡ₚ l ++ [x] ->
  ids_below (_id x) l ->
  exists s', s = x :: s' /\ s' ≡ₚ l /\ StronglySorted id_desc s'.
Proof.
  intros Hsorted Hperm Hbelow.
  destruct s as [| h s'].
  { apply Permutation_nil_l in Hperm. now destruct l. }
  apply StronglySorted_inv in Hsorted as [Hs' Hh].
  assert (Hx : x ∈ h :: s').
  { rewrite Hperm. apply elem_of_app. right. now apply list_elem_of_singleton. }
  assert (Hhin : h ∈ l ++ [x]).
  { rewrite <- Hperm. apply elem_of_cons. now left. }
  assert (h = x) as ->.
  { apply elem_of_app in Hhin as [Hhl | Hhx];
      [| now apply list_elem_of_singleton in Hhx].
    pose proof (proj1 (list.Forall_forall _ _) Hbelow h Hhl) as Hlt. cbn in Hlt.
    apply elem_of_cons in Hx as [-> | Hxs]; [lia |].
    pose proof (proj1 (list.Forall_forall _ _) Hh x Hxs) as Hle.
    unfold id_desc in Hle. lia. }
  exists s'. split; [reflexivity |]. split; [| exact Hs'].
  apply (Permutation_cons_inv (a := x)).
  rewrite Hperm. now rewrite Permutation_app_comm.
Qed.

(** With a limit of two, the page is made of the two newest documents. *)
Lemma newest_two {A} (l : list (stored A)) y x :
  ids_below (_id y) l ->
  (_id y < _id x)%N ->
  cursor_limit 2 (sort_id_desc (l ++ [y; x])) = [x; y].
Proof.
  intros Hbelow Hlt.
  destruct (sorted_desc_head (sort_id_desc (l ++ [y; x])) (l ++ [y]) x)
    as (s1 & Hs & Hperm1 & Hsorted1).
  - apply StronglySorted_merge_sort; apply _.
  - unfold sort_id_desc. rewrite merge_sort_Permutation.
    now rewrite <- app_assoc.
  - apply Forall_app. split; [| repeat constructor; exact Hlt].
    revert Hbelow. apply List.Forall_impl. intros d Hd. lia.
  - destruct (sorted_desc_head s1 l y Hsorted1 Hperm1 Hbelow)
      as (s2 & -> & _ & _).
    rewrite Hs. reflexivity.
Qed.

Lemma ids_below_filter {A} (P : stored A -> Prop) `{!forall d, Decision (P d)} n l :
  ids_below n l -> ids_below n (filter P l).
Proof.
  unfold ids_below. rewrite !list.Forall_forall. intros Hbelow d Hd.
  apply list_elem_of_filter in Hd as [_ Hd]. auto.
Qed.

Lemma ids_below_weaken {A} n m (l : list (stored A)) :
  (n <= m)%N -> ids_below n l -> ids_below m l.
Proof. intros Hle. apply List.Forall_impl. intros d Hd. lia. Qed.

(** C3.  [list_messages] returns its page in ascending order of
    identifiers; and after five messages m1 .. m5 were sent, in that order,
    to one conversation, a limit of two returns [m4; m5], and a limit of
    two before m4's id returns [m2; m3]. *)
Theorem list_messages_pagination :
  (forall cid limit before w,
     exists page,
       list_messages cid limit before w = (Ok (normalize <$> page), w) /\
       StronglySorted id_asc page /\
       page ⊆ messages_of w cid) /\
  (forall w cid sender t1 t2 t3 t4 t5 o conv,
     ObjectId cid = Ok (Full o) ->
     conversation_by_id w o = Some conv ->
     sender ∈ schemas.participant_ids (body conv) ->
     ids_below (next_oid w) (message w) ->
     (next_oid w + 5 <= oid_bound)%N ->
     exists m1 m2 m3 m4 m5 w5,
       run_all send_message
         ((fun t => {| conversation_id := cid; sender_id := sender; text := t |})
            <$> [t1; t2; t3; t4; t5]) w
         = ((fun m => Ok (Some m)) <$> [m1; m2; m3; m4; m5], w5) /\
       (fun m => schemas.text (fields m)) <$> [m1; m2; m3; m4; m5]
         = [t1; t2; t3; t4; t5] /\
       list_messages cid 2 None w5 = (Ok [m4; m5], w5) /\
       list_messages cid 2 (Some (id m4)) w5 = (Ok [m2; m3], w5)).
Proof.
  split; [intros; apply list_messages_ascending |].
  intros w cid sender t1 t2 t3 t4 t5 o conv Hdec Hconv Hin Hbelow Hbound.
  set (mk := fun t => {| conversation_id := cid; sender_id := sender; text := t |}).
  destruct (run_all_send (mk <$> [t1; t2; t3; t4; t5]) cid sender w o conv)
    as (w5 & Hrun & Hmsgs); auto; [repeat constructor |].
  cbn [fmap list_fmap posted] in Hrun, Hmsgs.
  set (n := next_oid w) in *.
  do 5 eexists. exists w5.
  split; [exact Hrun |]. split; [reflexivity |].
  assert (Hold : forall lt, ids_below n (filter (message_filter cid lt) (message w)))
    by (intros lt; now apply ids_below_filter).
  split.
  - destruct (list_messages_unfold cid 2 None w5) as (lt & -> & ->).
    rewrite Hmsgs, list.filter_app.
    repeat (rewrite filter_cons;
            destruct (decide _) as [_ | Hno];
            [| exfalso; apply Hno; now split]).
    rewrite filter_nil.
    match goal with
    | |- context [?l ++ [?a; ?b; ?c; ?y; ?x]] =>
        change (l ++ [a; b; c; y; x]) with (l ++ [a; b; c] ++ [y; x]);
        rewrite (app_assoc l [a; b; c] [y; x]);
        rewrite (newest_two (l ++ [a; b; c]) y x)
    end.
    + reflexivity.
    + apply Forall_app. split.
      * apply (ids_below_weaken n); [cbn; lia | apply Hold].
      * repeat constructor; cbn; lia.
    + cbn. lia.
  - destruct (list_messages_unfold cid 2
                (Some (str_oid (N.succ (N.succ (N.succ n))))) w5)
      as (lt & Hlist & Hlt).
    cbn [normalize id posted_message _id].
    rewrite Hlist, Hlt.
    destruct (decide (str_oid (N.succ (N.succ (N.succ n))) = ""))
      as [Hempty | _]; [now apply str_oid_nonempty in Hempty |].
    rewrite ObjectId_str_oid by (unfold n; lia).
    rewrite Hmsgs, list.filter_app.
    do 3 (rewrite filter_cons;
          destruct (decide _) as [_ | Hno];
          [| exfalso; apply Hno; split; [reflexivity | cbn; lia]]).
    do 2 (rewrite filter_cons;
          destruct (decide _) as [[_ Hyes] | _];
          [cbn in Hyes; lia |]).
    rewrite filter_nil.
    match goal with
    | |- context [?l ++ [?a; ?y; ?x]] =>
        change (l ++ [a; y; x]) with (l ++ [a] ++ [y; x]);
        rewrite (app_assoc l [a] [y; x]);
        rewrite (newest_two (l ++ [a]) y x)
    end.
    + reflexivity.
    + apply Forall_app. split.
      * apply (ids_below_weaken n); [cbn; lia | apply Hold].
      * repeat constructor; cbn; lia.
    + cbn. lia.
Qed.

Lemma list_messages_pagination_witness :
  exists m1 m2 m3 m4 m5 w5,
    run_all send_message five_messages alice_bob
      = ((fun m => Ok (Some m)) <$> [m1; m2; m3; m4; m5], w5) /\
    (fun m => schemas.text (fields m)) <$> [m1; m2; m3; m4; m5]
      = ["m1"; "m2"; "m3"; "m4"; "m5"] /\
    list_messages "000000000000000000000000" 2 None w5 = (Ok [m4; m5], w5) /\
    list_messages "000000000000000000000000" 2 (Some (id m4)) w5
      = (Ok [m2; m3], w5).
Proof.
  apply (proj2 list_messages_pagination alice_bob
           "000000000000000000000000" "alice" "m1" "m2" "m3" "m4" "m5" 0%N
           (Doc 0%N {| schemas.participant_ids := ["alice"; "bob"];
                       schemas.last_message_preview := None;
                       schemas.updated_at := None |})).
  - reflexivity.
  - reflexivity.
  - apply (bool_decide_unpack _). vm_compute. exact I.
  - vm_compute. constructor.
  - vm_compute. discriminate.
Defined.

(** The same pages, computed on the store [thread5]. *)
Example list_messages_thread5 :
  let cid := "000000000000000000000000" in
  let m (n : string) (t : string) :=
    Normalized n {| schemas.conversation_id := cid; schemas.sender_id := "alice";
                    schemas.text := t; schemas.delivered := true;
                    schemas.read := false |} in
  fst (list_messages cid 2 None thread5)
    = Ok [m "000000000000000000000004" "m4"; m "000000000000000000000005" "m5"] /\
  fst (list_messages cid 2 (Some "000000000000000000000004") thread5)
    = Ok [m "000000000000000000000002" "m2"; m "000000000000000000000003" "m3"].
Proof. split; vm_compute; reflexivity. Qed.

End ListMessages.

Section Reachable.

Lemma start_conversation_world payload w :
  snd (start_conversation payload w) = w \/
  (user_a payload <> user_b payload /\
   conversation_of_pair w (user_a payload) (user_b payload) = None /\
   snd (start_conversation payload w) = started (user_a payload) (user_b payload) w).
Proof.
  destruct (decide (user_a payload = user_b payload)) as [Heq | Hne].
  { left. unfold start_conversation.
    destruct (decide (user_a payload = user_b payload)); [reflexivity | contradiction]. }
  destruct (conversation_of_pair w (user_a payload) (user_b payload)) as [e |] eqn:Hpair.
  - left. now rewrite (start_conversation_existing _ _ _ Hne Hpair).
  - right. split; [exact Hne |]. split; [reflexivity |].
    now apply start_conversation_new.
Qed.

Lemma update_first_lookup {A} (P : stored A -> Prop) `{!forall d, Decision (P d)}
    (f : A -> A) (l : list (stored A)) i c' :
  update_first P f l !! i = Some c' ->
  exists c, l !! i = Some c /\ _id c' = _id c /\ (c' = c \/ body c' = f (body c)).
Proof.
  revert i. induction l as [| d l IH]; intros i; [discriminate |].
  cbn [update_first]. destruct (decide (P d)).
  - destruct i as [| i]; cbn.
    + intros [= <-]. exists d. cbn. auto.
    + intros Hl. exists c'. auto.
  - destruct i as [| i]; cbn.
    + intros [= <-]. exists d. auto.
    + apply IH.
Qed.

Lemma ids_below_snoc {A} n (l : list (stored A)) x :
  ids_below n l -> ids_below (N.succ n) (l ++ [Doc n x]).
Proof.
  intros Hbelow. apply Forall_app. split.
  - apply (ids_below_weaken n); [lia | exact Hbelow].
  - repeat constructor. cbn. lia.
Qed.

Lemma store_inv_init n t : store_inv (World [] [] [] n t).
Proof.
  split; try apply Forall_nil.
  - intros d t' Hin. inversion Hin.
  - intros i j c1 c2 a b _ Hi. destruct i; discriminate.
Qed.

Lemma store_inv_create_user payload w :
  store_inv w -> store_inv (snd (create_user payload w)).
Proof.
  intros [Hu Hc Hm Hclock Hpairs]. rewrite create_user_world.
  split; cbn [chatuser conversation message next_oid clock]; auto.
  - now apply ids_below_snoc.
  - apply (ids_below_weaken (next_oid w)); [lia | exact Hc].
  - apply (ids_below_weaken (next_oid w)); [lia | exact Hm].
Qed.

Lemma between_new a b a' b' x :
  a' <> b' ->
  between a' b' (Doc x {| schemas.participant_ids := [a; b];
                          schemas.last_message_preview := None;
                          schemas.updated_at := None |}) ->
  (a' = a /\ b' = b) \/ (a' = b /\ b' = a).
Proof.
  intros Hne [Ha Hb]. cbn in Ha, Hb.
  apply elem_of_cons in Ha as [-> | Ha]; apply elem_of_cons in Hb as [-> | Hb];
    try apply list_elem_of_singleton in Ha;
    try apply list_elem_of_singleton in Hb;
    subst; auto; contradiction.
Qed.

Lemma pairs_unique_started a b w :
  a <> b ->
  conversation_of_pair w a b = None ->
  pairs_unique (conversation w) ->
  pairs_unique (conversation (started a b w)).
Proof.
  intros Hne Hnone Hpairs. unfold started. cbn [conversation].
  assert (Hold : forall c a' b', a' <> b' -> c ∈ conversation w ->
                   between a' b' c ->
                   ~ ((a' = a /\ b' = b) \/ (a' = b /\ b' = a))).
  { intros c a' b' _ Hin Hc Hsame.
    apply (head_filter_None _ _ Hnone c Hin).
    apply participants_all_between.
    destruct Hsame as [[-> ->] | [-> ->]]; [exact Hc |].
    destruct Hc. now split. }
  intros i j c1 c2 a' b' Hne' Hi Hj Hc1 Hc2.
  apply lookup_snoc_Some in Hi as [[Hi1 Hi2] | [Hi1 Hi2]];
    apply lookup_snoc_Some in Hj as [[Hj1 Hj2] | [Hj1 Hj2]].
  - eapply Hpairs; eauto.
  - subst c2. exfalso.
    eapply (Hold c1); eauto using list_elem_of_lookup_2, between_new.
  - subst c1. exfalso.
    eapply (Hold c2); eauto using list_elem_of_lookup_2, between_new.
  - congruence.
Qed.

Lemma store_inv_start_conversation payload w :
  store_inv w -> store_inv (snd (start_conversation payload w)).
Proof.
  intros Hinv.
  destruct (start_conversation_world payload w) as [-> | (Hne & Hnone & ->)];
    [exact Hinv |].
  destruct Hinv as [Hu Hc Hm Hclock Hpairs].
  split; unfold started at 1; cbn [chatuser conversation message next_oid clock].
  - apply (ids_below_weaken (next_oid w)); [lia | exact Hu].
  - now apply ids_below_snoc.
  - apply (ids_below_weaken (next_oid w)); [lia | exact Hm].
  - intros d t Hin Hup. cbn [conversation clock] in *.
    apply elem_of_app in Hin as [Hin | Hin]; [eapply Hclock; eauto |].
    apply list_elem_of_singleton in Hin. subst d. discriminate.
  - now apply pairs_unique_started.
Qed.

Lemma store_inv_sent payload conv w :
  store_inv w -> store_inv (sent payload conv w).
Proof.
  intros [Hu Hc Hm Hclock Hpairs].
  split; unfold sent; cbn [chatuser conversation message next_oid clock].
  - apply (ids_below_weaken (next_oid w)); [lia | exact Hu].
  - apply list.Forall_forall. intros d Hd.
    apply list_elem_of_lookup in Hd as [i Hi].
    apply update_first_lookup in Hi as (c & Hc0 & -> & _).
    apply list_elem_of_lookup_2 in Hc0.
    pose proof (proj1 (list.Forall_forall _ _) Hc c Hc0). cbn in *. lia.
  - now apply ids_below_snoc.
  - intros d t Hd Hup. cbn [conversation clock] in *.
    apply list_elem_of_lookup in Hd as [i Hi].
    apply update_first_lookup in Hi as (c & Hc0 & _ & [-> | Hbody]).
    + eapply Hclock; eauto using list_elem_of_lookup_2.
    + rewrite Hbody in Hup. cbn in Hup. injection Hup as <-. lia.
  - intros i j c1 c2 a b Hne Hi Hj Hc1 Hc2.
    apply update_first_lookup in Hi as (d1 & Hd1 & _ & Hb1).
    apply update_first_lookup in Hj as (d2 & Hd2 & _ & Hb2).
    apply (Hpairs i j d1 d2 a b Hne Hd1 Hd2).
    + destruct Hb1 as [<- | Hb1]; [exact Hc1 |].
      unfold between in *. now rewrite Hb1 in Hc1.
    + destruct Hb2 as [<- | Hb2]; [exact Hc2 |].
      unfold between in *. now rewrite Hb2 in Hc2.
Qed.

Lemma store_inv_advance d w : store_inv w -> store_inv (advance d w).
Proof.
  intros [Hu Hc Hm Hclock Hpairs]. split; auto.
  intros c t Hin Hup. cbn [advance conversation clock] in *.
  specialize (Hclock c t Hin Hup). lia.
Qed.

(** Every store that requests lead to keeps its identifiers below the
    next one to allocate, its timestamps not after its clock, and at most
    one conversation per pair of users. *)
Lemma reachable_inv w : reachable w -> store_inv w.
Proof.
  induction 1 as [n t | r w _ IH]; [apply store_inv_init |].
  destruct r as [p | p | p | cid limit before | d]; cbn [serve].
  - now apply store_inv_create_user.
  - now apply store_inv_start_conversation.
  - destruct (send_message_world p w) as [-> | (conv & _ & ->)];
      [exact IH | now apply store_inv_sent].
  - now rewrite list_messages_world.
  - now apply store_inv_advance.
Qed.

(** In such a store, the conversation of a pair is the one that
    [start_conversation] finds. *)
Lemma reachable_conversation_of_pair w a b c :
  reachable w -> a <> b -> c ∈ conversation w -> between a b c ->
  conversation_of_pair w a b = Some c.
Proof.
  intros Hreach Hne Hin Hc.
  destruct (head_filter_is_Some (participants_all [a; b]) (conversation w) c)
    as [c0 Hc0]; [exact Hin | now apply participants_all_between |].
  destruct (head_filter_Some _ _ _ Hc0) as [Hin0 Hall0].
  apply participants_all_between in Hall0.
  apply list_elem_of_lookup in Hin as [j Hj].
  apply list_elem_of_lookup in Hin0 as [i Hi].
  pose proof (inv_pairs _ (reachable_inv _ Hreach) i j c0 c a b Hne Hi Hj Hall0 Hc).
  subst j. unfold conversation_of_pair. congruence.
Qed.

End Reachable.

Section Users.

Lemma create_user_run payload w :
  ids_below (next_oid w) (chatuser w) ->
  (next_oid w < oid_bound)%N ->
  create_user payload w =
    (Ok (Some (normalize (Doc (next_oid w) (model_dump payload)))),
     registered payload w).
Proof.
  intros Hbelow Hbound.
  unfold create_user, bind, create_document, bind, fresh_oid, lift, find_one, ret.
  cbn. rewrite ObjectId_str_oid by exact Hbound.
  rewrite filter_id_is, find_fresh by exact Hbelow. reflexivity.
Qed.

(** X1.  [create_user] answers with the user it was given, under the
    identifier the store allocated, and the store gains that one document
    at the end of the collection; nothing else changes. *)
Theorem create_user_returns_created payload w :
  ids_below (next_oid w) (chatuser w) ->
  (next_oid w < oid_bound)%N ->
  create_user payload w =
    (Ok (Some {| id := str_oid (next_oid w);
                 fields := {| schemas.username := username payload;
                              schemas.avatar_color := avatar_color payload |} |}),
     World (chatuser w ++ [Doc (next_oid w) (model_dump payload)])
           (conversation w) (message w) (N.succ (next_oid w)) (clock w)).
Proof. intros Hbelow Hbound. now rewrite create_user_run. Qed.

Lemma create_user_returns_created_witness :
  let payload := {| username := "carol"; avatar_color := None |} in
  create_user payload alice_bob =
    (Ok (Some {| id := str_oid 1%N;
                 fields := {| schemas.username := "carol";
                              schemas.avatar_color := None |} |}),
     World [Doc 1%N (model_dump payload)]
           (conversation alice_bob) (message alice_bob) 2%N 0).
Proof.
  intros payload. apply (create_user_returns_created payload alice_bob).
  - vm_compute. constructor.
  - vm_compute. reflexivity.
Defined.

Lemma list_users_run order w :
  list_users order w = (Ok (normalize <$> order (chatuser w)), w).
Proof. reflexivity. Qed.

(** X2.  A user just created is listed: in whatever order the store returns
    its documents, [list_users] after [create_user] returns the users it
    returned before together with the user that [create_user] answered
    with, each once. *)
Theorem list_users_after_create_user order payload w :
  store_order order ->
  ids_below (next_oid w) (chatuser w) ->
  (next_oid w < oid_bound)%N ->
  exists u us us' w',
    create_user payload w = (Ok (Some u), w') /\
    list_users order w = (Ok us, w) /\
    list_users order w' = (Ok us', w') /\
    us' ≡ₚ u :: us.
Proof.
  intros Horder Hbelow Hbound.
  exists (normalize (Doc (next_oid w) (model_dump payload))),
         (normalize <$> order (chatuser w)),
         (normalize <$> order (chatuser (registered payload w))),
         (registered payload w).
  split; [now apply create_user_run |].
  split; [apply list_users_run |].
  split; [apply list_users_run |].
  rewrite <- fmap_cons. apply fmap_Permutation.
  rewrite !Horder. unfold registered. cbn [chatuser].
  now rewrite Permutation_app_comm.
Qed.

Lemma list_users_after_create_user_witness :
  exists u us us' w',
    create_user {| username := "carol"; avatar_color := None |} alice_bob
      = (Ok (Some u), w') /\
    list_users reverse alice_bob = (Ok us, alice_bob) /\
    list_users reverse w' = (Ok us', w') /\
    us' ≡ₚ u :: us.
Proof.
  apply (list_users_after_create_user reverse
           {| username := "carol"; avatar_color := None |} alice_bob).
  - intros l. apply reverse_Permutation.
  - vm_compute. constructor.
  - vm_compute. reflexivity.
Defined.

End Users.

Section Conversations.

Lemma start_conversation_run_new payload w :
  user_a payload <> user_b payload ->
  conversation_of_pair w (user_a payload) (user_b payload) = None ->
  ids_below (next_oid w) (conversation w) ->
  (next_oid w < oid_bound)%N ->
  start_conversation payload w =
    (Ok (Some (normalize (new_conversation (user_a payload) (user_b payload) (next_oid w)))),
     started (user_a payload) (user_b payload) w).
Proof.
  intros Hne Hnone Hbelow Hbound. unfold start_conversation.
  destruct (decide (user_a payload = user_b payload)); [contradiction |].
  erewrite bind_Ok by reflexivity.
  cbn. unfold conversation_of_pair in Hnone. rewrite Hnone.
  unfold bind, create_document, bind, fresh_oid, lift, find_one, ret. cbn.
  rewrite ObjectId_str_oid by exact Hbound.
  rewrite filter_id_is, find_fresh by exact Hbelow. reflexivity.
Qed.

Lemma head_filter_nil {A} (P : A -> Prop) `{!forall x, Decision (P x)} l :
  head (filter P l) = None -> filter P l = [].
Proof. destruct (filter P l); [reflexivity | discriminate]. Qed.

Lemma conversation_of_pair_started w a b :
  conversation_of_pair w a b = None ->
  conversation_of_pair (started a b w) a b = Some (new_conversation a b (next_oid w)).
Proof.
  intros Hnone. unfold conversation_of_pair, started in *. cbn [conversation].
  rewrite list.filter_app, (head_filter_nil _ _ Hnone), app_nil_l.
  rewrite filter_cons.
  destruct (decide (participants_all [a; b]
                      (Doc (next_oid w)
                         {| schemas.participant_ids := [a; b];
                            schemas.last_message_preview := None;
                            schemas.updated_at := None |}))) as [_ | Hno];
    [reflexivity |].
  exfalso. apply Hno. apply participants_all_between.
  split; cbn; [apply elem_of_cons; now left |].
  apply elem_of_cons. right. apply elem_of_cons. now left.
Qed.

Lemma run_all_existing a b w e calls :
  a <> b ->
  conversation_of_pair w a b = Some e ->
  Forall (pair_request a b) calls ->
  run_all start_conversation calls w =
    ((fun _ => Ok (Some (normalize e))) <$> calls, w).
Proof.
  intros Hne Hfound Hcalls.
  induction Hcalls as [| p calls Hp _ IH]; [reflexivity |].
  cbn [run_all fmap list_fmap].
  assert (Hrun : start_conversation p w = (Ok (Some (normalize e)), w)).
  { apply start_conversation_existing.
    - destruct Hp as [[-> ->] | [-> ->]]; congruence.
    - destruct Hp as [[-> ->] | [-> ->]]; [exact Hfound |].
      now rewrite conversation_of_pair_sym. }
  now rewrite Hrun, IH.
Qed.

(** X3.  For two distinct users without a conversation, [start_conversation]
    inserts one with the two ids in the order given, no preview and no
    timestamp, at the end of the collection, and answers with it under the
    identifier the store allocated. *)
Theorem start_conversation_creates payload w :
  user_a payload <> user_b payload ->
  (forall c, c ∈ conversation w -> ~ between (user_a payload) (user_b payload) c) ->
  ids_below (next_oid w) (conversation w) ->
  (next_oid w < oid_bound)%N ->
  start_conversation payload w =
    (Ok (Some {| id := str_oid (next_oid w);
                 fields := {| schemas.participant_ids := [user_a payload; user_b payload];
                              schemas.last_message_preview := None;
                              schemas.updated_at := None |} |}),
     World (chatuser w)
           (conversation w ++
              [Doc (next_oid w)
                 {| schemas.participant_ids := [user_a payload; user_b payload];
                    schemas.last_message_preview := None;
                    schemas.updated_at := None |}])
           (message w) (N.succ (next_oid w)) (clock w)).
Proof.
  intros Hne Hnone Hbelow Hbound.
  rewrite start_conversation_run_new; auto.
  destruct (conversation_of_pair w (user_a payload) (user_b payload)) as [e |] eqn:He;
    [| reflexivity].
  destruct (head_filter_Some _ _ _ He) as [Hin Hall].
  apply participants_all_between in Hall. now destruct (Hnone e Hin).
Qed.

Lemma start_conversation_creates_witness :
  let payload := {| user_a := "bob"; user_b := "carol" |} in
  start_conversation payload alice_bob =
    (Ok (Some {| id := str_oid 1%N;
                 fields := {| schemas.participant_ids := ["bob"; "carol"];
                              schemas.last_message_preview := None;
                              schemas.updated_at := None |} |}),
     World []
           (conversation alice_bob ++
              [Doc 1%N
                 {| schemas.participant_ids := ["bob"; "carol"];
                    schemas.last_message_preview := None;
                    schemas.updated_at := None |}])
           [] 2%N 0).
Proof.
  intros payload. apply (start_conversation_creates payload alice_bob).
  - discriminate.
  - intros c Hin [_ Hcarol]. vm_compute in Hin.
    apply list_elem_of_singleton in Hin. subst c.
    revert Hcarol. apply (bool_decide_unpack _). vm_compute. exact I.
  - vm_compute. repeat constructor.
  - vm_compute. reflexivity.
Defined.

(** X4.  Whatever the store holds, requests for one pair of distinct users,
    in either order of the arguments, all get the same answer, the first
    one included, and together insert at most one conversation. *)
Theorem start_conversation_repeated a b w p calls :
  a <> b ->
  ids_below (next_oid w) (conversation w) ->
  (next_oid w < oid_bound)%N ->
  pair_request a b p ->
  Forall (pair_request a b) calls ->
  exists c w',
    run_all start_conversation (p :: calls) w
      = ((fun _ => Ok (Some c)) <$> (p :: calls), w') /\
    (conversation w' = conversation w \/
     exists d, conversation w' = conversation w ++ [d]).
Proof.
  intros Hne Hbelow Hbound Hp Hcalls.
  destruct (conversation_of_pair w a b) as [e |] eqn:He.
  - exists (normalize e), w. split; [| now left].
    apply (run_all_existing a b); auto.
  - assert (Hp' : user_a p <> user_b p)
      by (destruct Hp as [[-> ->] | [-> ->]]; congruence).
    assert (Hnone : conversation_of_pair w (user_a p) (user_b p) = None).
    { destruct Hp as [[-> ->] | [-> ->]]; [exact He |].
      now rewrite conversation_of_pair_sym. }
    pose proof (start_conversation_run_new p w Hp' Hnone Hbelow Hbound) as Hfirst.
    pose proof (conversation_of_pair_started w _ _ Hnone) as Hthen.
    assert (Hthen' : conversation_of_pair (started (user_a p) (user_b p) w) a b
                     = Some (new_conversation (user_a p) (user_b p) (next_oid w))).
    { destruct Hp as [[Ha Hb] | [Ha Hb]]; rewrite Ha, Hb in *; [exact Hthen |].
      now rewrite conversation_of_pair_sym. }
    exists (normalize (new_conversation (user_a p) (user_b p) (next_oid w))),
           (started (user_a p) (user_b p) w).
    split; [| right; eexists; reflexivity].
    cbn [run_all fmap list_fmap]. rewrite Hfirst.
    now rewrite (run_all_existing a b _ _ calls Hne Hthen' Hcalls).
Qed.

Lemma start_conversation_repeated_witness :
  exists c w',
    run_all start_conversation
      [ {| user_a := "bob"; user_b := "carol" |};
        {| user_a := "carol"; user_b := "bob" |};
        {| user_a := "bob"; user_b := "carol" |} ] alice_bob
      = ([Ok (Some c); Ok (Some c); Ok (Some c)], w') /\
    (conversation w' = conversation alice_bob \/
     exists d, conversation w' = conversation alice_bob ++ [d]).
Proof.
  apply (start_conversation_repeated "bob" "carol" alice_bob
           {| user_a := "bob"; user_b := "carol" |}
           [ {| user_a := "carol"; user_b := "bob" |};
             {| user_a := "bob"; user_b := "carol" |} ]).
  - discriminate.
  - vm_compute. repeat constructor.
  - vm_compute. reflexivity.
  - left. split; reflexivity.
  - constructor; [right; split; reflexivity |].
    constructor; [left; split; reflexivity | constructor].
Defined.

#[local] Instance updated_desc_trans : Transitive updated_desc.
Proof.
  intros x y z. unfold updated_desc.
  destruct (schemas.updated_at (body x)) as [[a | a] |],
           (schemas.updated_at (body y)) as [[b | b] |],
           (schemas.updated_at (body z)) as [[c | c] |]; cbn; try tauto; lia.
Qed.

#[local] Instance updated_desc_total : Total updated_desc.
Proof.
  intros x y. unfold updated_desc.
  destruct (schemas.updated_at (body x)) as [[a | a] |],
           (schemas.updated_at (body y)) as [[b | b] |]; cbn; try tauto; lia.
Qed.

Lemma get_conversations_run user_id w :
  get_conversations user_id w =
    (Ok (normalize <$> sort_updated_desc (filter (participates user_id) (conversation w))), w).
Proof. reflexivity. Qed.

(** X5.  [get_conversations] leaves the store as it is and returns the
    conversations the user takes part in, each once and no other, the most
    recently updated first and those never written to last. *)
Theorem get_conversations_sorted user_id w :
  exists page,
    get_conversations user_id w = (Ok (normalize <$> page), w) /\
    page ≡ₚ filter (participates user_id) (conversation w) /\
    StronglySorted updated_desc page.
Proof.
  exists (sort_updated_desc (filter (participates user_id) (conversation w))).
  split; [apply get_conversations_run |].
  split; [apply merge_sort_Permutation |].
  apply StronglySorted_merge_sort; apply _.
Qed.

(** X6.  A conversation that [start_conversation] answers with is listed by
    [get_conversations] for either of its two users. *)
Theorem get_conversations_after_start payload w :
  user_a payload <> user_b payload ->
  ids_below (next_oid w) (conversation w) ->
  (next_oid w < oid_bound)%N ->
  exists c w' listed_a listed_b,
    start_conversation payload w = (Ok (Some c), w') /\
    get_conversations (user_a payload) w' = (Ok listed_a, w') /\
    get_conversations (user_b payload) w' = (Ok listed_b, w') /\
    c ∈ listed_a /\ c ∈ listed_b.
Proof.
  intros Hne Hbelow Hbound.
  assert (Hlisted : forall d w', d ∈ conversation w' ->
            between (user_a payload) (user_b payload) d ->
            forall u, u = user_a payload \/ u = user_b payload ->
            normalize d ∈ normalize <$>
              sort_updated_desc (filter (participates u) (conversation w'))).
  { intros d w' Hin [Ha Hb] u Hu. apply list_elem_of_fmap_2.
    unfold sort_updated_desc. rewrite merge_sort_Permutation.
    apply list_elem_of_filter. split; [| exact Hin].
    unfold participates. now destruct Hu as [-> | ->]. }
  destruct (conversation_of_pair w (user_a payload) (user_b payload)) as [e |] eqn:He.
  - destruct (head_filter_Some _ _ _ He) as [Hin Hall].
    apply participants_all_between in Hall.
    exists (normalize e), w. do 2 eexists.
    split; [now apply start_conversation_existing |].
    split; [apply get_conversations_run |].
    split; [apply get_conversations_run |].
    split; apply Hlisted; auto.
  - exists (normalize (new_conversation (user_a payload) (user_b payload) (next_oid w))),
           (started (user_a payload) (user_b payload) w).
    do 2 eexists.
    split; [now apply start_conversation_run_new |].
    split; [apply get_conversations_run |].
    split; [apply get_conversations_run |].
    pose proof (conversation_of_pair_started w _ _ He) as Hthen.
    destruct (head_filter_Some _ _ _ Hthen) as [Hin Hall].
    apply participants_all_between in Hall.
    split; apply Hlisted; auto.
Qed.

Lemma get_conversations_after_start_witness :
  exists c w' listed_a listed_b,
    start_conversation {| user_a := "bob"; user_b := "carol" |} alice_bob_hello
      = (Ok (Some c), w') /\
    get_conversations "bob" w' = (Ok listed_a, w') /\
    get_conversations "carol" w' = (Ok listed_b, w') /\
    c ∈ listed_a /\ c ∈ listed_b.
Proof.
  apply (get_conversations_after_start
           {| user_a := "bob"; user_b := "carol" |} alice_bob_hello).
  - discriminate.
  - vm_compute. repeat constructor.
  - vm_compute. reflexivity.
Defined.

End Conversations.

Section Messages.

Lemma send_message_cases payload w :
  snd (send_message payload w) = w \/
  exists o conv,
    ObjectId (conversation_id payload) = Ok (Full o) /\
    conversation_by_id w o = Some conv /\
    sender_id payload ∈ schemas.participant_ids (body conv) /\
    snd (send_message payload w) = sent payload conv w.
Proof.
  destruct (ObjectId (conversation_id payload)) as [[o | bs] | e] eqn:Hdec.
  3:{ left. now rewrite (send_message_invalid_id _ _ _ Hdec). }
  2:{ left. now rewrite (send_message_short _ _ _ Hdec). }
  destruct (conversation_by_id w o) as [conv |] eqn:Hconv.
  2:{ left. now rewrite (send_message_not_found _ _ _ Hdec Hconv). }
  destruct (decide (sender_id payload ∈ schemas.participant_ids (body conv)))
    as [Hin | Hnot].
  2:{ left. now rewrite (send_message_forbidden_step _ _ _ _ Hdec Hconv Hnot). }
  right. exists o, conv. repeat split; auto.
  rewrite (send_message_found _ _ _ _ Hdec Hconv Hin).
  destruct (ObjectId (str_oid (next_oid w))); reflexivity.
Qed.

(** X7.  A participant's message to an existing conversation is stored at
    the end of the collection under the identifier the store allocated,
    with [delivered] set and [read] unset, and is what the call answers
    with; the conversation gets the text as preview and the time of the
    call as timestamp. *)
Theorem send_message_returns_created payload w o conv :
  ObjectId (conversation_id payload) = Ok (Full o) ->
  conversation_by_id w o = Some conv ->
  sender_id payload ∈ schemas.participant_ids (body conv) ->
  ids_below (next_oid w) (message w) ->
  (next_oid w < oid_bound)%N ->
  send_message payload w =
    (Ok (Some {| id := str_oid (next_oid w);
                 fields := {| schemas.conversation_id := conversation_id payload;
                              schemas.sender_id := sender_id payload;
                              schemas.text := text payload;
                              schemas.delivered := true;
                              schemas.read := false |} |}),
     World (chatuser w)
           (update_first (fun d => _id d = o)
              (set_preview (text payload) (clock w)) (conversation w))
           (message w ++
              [Doc (next_oid w)
                 {| schemas.conversation_id := conversation_id payload;
                    schemas.sender_id := sender_id payload;
                    schemas.text := text payload;
                    schemas.delivered := true;
                    schemas.read := false |}])
           (N.succ (next_oid w)) (clock w)).
Proof.
  intros Hdec Hconv Hin Hbelow Hbound.
  rewrite (send_message_Ok _ _ _ _ Hdec Hconv Hin Hbelow Hbound).
  destruct (head_filter_Some _ _ _ Hconv) as [_ <-]. reflexivity.
Qed.

Lemma send_message_returns_created_witness :
  let payload := {| conversation_id := "000000000000000000000000";
                    sender_id := "bob"; text := "hi" |} in
  send_message payload alice_bob =
    (Ok (Some {| id := str_oid 1%N;
                 fields := {| schemas.conversation_id := "000000000000000000000000";
                              schemas.sender_id := "bob";
                              schemas.text := "hi";
                              schemas.delivered := true;
                              schemas.read := false |} |}),
     World []
           (update_first (fun d => _id d = 0%N)
              (set_preview "hi" 0) (conversation alice_bob))
           ([] ++
              [Doc 1%N
                 {| schemas.conversation_id := "000000000000000000000000";
                    schemas.sender_id := "bob";
                    schemas.text := "hi";
                    schemas.delivered := true;
                    schemas.read := false |}])
           2%N 0).
Proof.
  intros payload.
  apply (send_message_returns_created payload alice_bob 0%N
           (Doc 0%N {| schemas.participant_ids := ["alice"; "bob"];
                       schemas.last_message_preview := None;
                       schemas.updated_at := None |})).
  - reflexivity.
  - reflexivity.
  - apply (bool_decide_unpack _). vm_compute. exact I.
  - vm_compute. constructor.
  - vm_compute. reflexivity.
Defined.

(** X8.  A well-formed identifier that no stored conversation carries is
    answered with the 404 error whoever the sender is, and the store is left
    as it was. *)
Theorem send_message_unknown_conversation payload w o :
  ObjectId (conversation_id payload) = Ok (Full o) ->
  (forall c, c ∈ conversation w -> _id c <> o) ->
  send_message payload w =
    (Raise (HTTPException 404 "Conversation not found"), w) /\
  http_status (fst (send_message payload w)) = 404.
Proof.
  intros Hdec Hnone.
  assert (Hrun : send_message payload w =
                 (Raise (HTTPException 404 "Conversation not found"), w)).
  { apply (send_message_not_found _ _ o Hdec).
    destruct (conversation_by_id w o) as [c |] eqn:Hc; [| reflexivity].
    destruct (head_filter_Some _ _ _ Hc) as [Hin Hid]. now destruct (Hnone c Hin). }
  rewrite Hrun. split; reflexivity.
Qed.

Lemma send_message_unknown_conversation_witness :
  let payload := {| conversation_id := "0000000000000000000000aB";
                    sender_id := "alice"; text := "hi" |} in
  send_message payload alice_bob =
    (Raise (HTTPException 404 "Conversation not found"), alice_bob) /\
  http_status (fst (send_message payload alice_bob)) = 404.
Proof.
  intros payload.
  apply (send_message_unknown_conversation payload alice_bob
           171%N).
  - vm_compute. reflexivity.
  - intros c Hin. vm_compute in Hin.
    apply list_elem_of_singleton in Hin. subst c. discriminate.
Defined.

Lemma update_first_ids {A} (P : stored A -> Prop) `{!forall d, Decision (P d)}
    (f : A -> A) (l : list (stored A)) :
  _id <$> update_first P f l = _id <$> l.
Proof.
  induction l as [| d l IH]; [reflexivity |].
  cbn [update_first]. destruct (decide (P d)); cbn; [reflexivity | now rewrite IH].
Qed.

Lemma update_first_keeps {A B} (P : stored A -> Prop) `{!forall d, Decision (P d)}
    (f : A -> A) (g : A -> B) (l : list (stored A)) :
  (forall x, g (f x) = g x) ->
  (fun d => g (body d)) <$> update_first P f l = (fun d => g (body d)) <$> l.
Proof.
  intros Hg. induction l as [| d l IH]; [reflexivity |].
  cbn [update_first]. destruct (decide (P d)); cbn; [now rewrite Hg | now rewrite IH].
Qed.

Lemma update_first_other {A} (f : A -> A) (l : list (stored A)) o o' :
  o <> o' ->
  filter (fun d => _id d = o') (update_first (fun d => _id d = o) f l)
    = filter (fun d => _id d = o') l.
Proof.
  intros Hne. induction l as [| d l IH]; [reflexivity |].
  cbn [update_first]. destruct (decide (_id d = o)) as [Heq | Hneq].
  - rewrite !filter_cons. cbn [_id].
    destruct (decide (_id d = o')); [congruence | reflexivity].
  - rewrite !filter_cons. destruct (decide (_id d = o')); now rewrite IH.
Qed.

(** X9.  Whatever its outcome, [send_message] leaves the users as they are,
    keeps every stored message and adds at most one at the end, keeps the
    identifier and the participants of every conversation, and leaves every
    conversation but the addressed one as it was. *)
Theorem send_message_frame payload w :
  let w' := snd (send_message payload w) in
  chatuser w' = chatuser w /\
  (message w' = message w \/ exists m, message w' = message w ++ [m]) /\
  _id <$> conversation w' = _id <$> conversation w /\
  (fun d => schemas.participant_ids (body d)) <$> conversation w'
    = (fun d => schemas.participant_ids (body d)) <$> conversation w /\
  (forall o', ObjectId (conversation_id payload) <> Ok (Full o') ->
     filter (fun d => _id d = o') (conversation w')
       = filter (fun d => _id d = o') (conversation w)).
Proof.
  cbn zeta.
  destruct (send_message_cases payload w)
    as [-> | (o & conv & Hdec & Hconv & _ & ->)].
  { repeat split; auto. }
  destruct (head_filter_Some _ _ _ Hconv) as [_ Hid].
  unfold sent. cbn [chatuser conversation message].
  split; [reflexivity |].
  split; [right; eexists; reflexivity |].
  split; [apply update_first_ids |].
  split; [now apply (update_first_keeps _ _ schemas.participant_ids) |].
  intros o' Hother. apply update_first_other. congruence.
Qed.

(** X10.  A message is filed under the very string it was sent with: sent
    under one spelling of a conversation's identifier, it becomes the
    conversation's preview, and yet [list_messages] under another spelling
    of the same identifier returns what it returned before. *)
Theorem send_message_other_spelling payload w o conv cid' :
  ObjectId (conversation_id payload) = Ok (Full o) ->
  ObjectId cid' = Ok (Full o) ->
  conversation_id payload <> cid' ->
  conversation_by_id w o = Some conv ->
  sender_id payload ∈ schemas.participant_ids (body conv) ->
  let w' := snd (send_message payload w) in
  (exists c', conversation_by_id w' o = Some c' /\
              schemas.last_message_preview (body c') = Some (text payload)) /\
  forall limit before,
    fst (list_messages cid' limit before w') = fst (list_messages cid' limit before w).
Proof.
  intros Hdec Hdec' Hne Hconv Hin. cbn zeta.
  rewrite (send_message_found _ _ _ _ Hdec Hconv Hin).
  assert (Hsnd : snd (match ObjectId (str_oid (next_oid w)) with
                      | Ok m =>
                          (Ok (to_str_id (head (filter (id_is m)
                                                  (message (sent payload conv w))))),
                           sent payload conv w)
                      | Raise e => (Raise e, sent payload conv w)
                      end) = sent payload conv w)
    by (destruct (ObjectId (str_oid (next_oid w))); reflexivity).
  rewrite Hsnd. split.
  - destruct (head_filter_Some _ _ _ Hconv) as [_ Hid]. subst o.
    eexists. split; [now apply sent_conversation_by_id | reflexivity].
  - intros limit before.
    destruct (list_messages_unfold cid' limit before (sent payload conv w))
      as (lt & -> & Hlt).
    destruct (list_messages_unfold cid' limit before w) as (lt' & -> & Hlt').
    rewrite <- Hlt' in Hlt. subst lt'. cbn [fst]. do 4 f_equal.
    unfold sent. cbn [message]. rewrite list.filter_app, filter_cons.
    destruct (decide (message_filter cid' lt (posted_message payload (next_oid w))))
      as [[Hsame _] | _]; [exfalso; apply Hne; exact Hsame |].
    now rewrite filter_nil, app_nil_r.
Qed.

Lemma send_message_other_spelling_witness :
  let payload := {| conversation_id := "00000000000000000000000A";
                    sender_id := "alice"; text := "hello" |} in
  let w' := snd (send_message payload lettered) in
  (exists c', conversation_by_id w' 10%N = Some c' /\
              schemas.last_message_preview (body c') = Some "hello") /\
  forall limit before,
    fst (list_messages "00000000000000000000000a" limit before w')
      = fst (list_messages "00000000000000000000000a" limit before lettered).
Proof.
  intros payload.
  apply (send_message_other_spelling payload lettered 10%N
           (Doc 10%N {| schemas.participant_ids := ["alice"; "bob"];
                        schemas.last_message_preview := None;
                        schemas.updated_at := None |})
           "00000000000000000000000a").
  - reflexivity.
  - reflexivity.
  - discriminate.
  - reflexivity.
  - apply (bool_decide_unpack _). vm_compute. exact I.
Defined.

End Messages.

Section Pagination.

#[local] Existing Instance id_desc_trans.
#[local] Existing Instance id_desc_total.

Lemma list_messages_page cid limit before w :
  list_messages cid limit before w =
    (Ok (normalize <$>
           reverse (cursor_limit limit (sort_id_desc (thread w cid (cursor before))))), w).
Proof.
  rewrite fmap_reverse. reflexivity.
Qed.

Lemma cursor_decoded b o : ObjectId b = Ok (Full o) -> cursor (Some b) = Some o.
Proof.
  intros Hdec. unfold cursor.
  destruct (decide (b = "")) as [-> | _]; [discriminate Hdec |].
  now rewrite Hdec.
Qed.

Lemma thread_None w cid : thread w cid None = messages_of w cid.
Proof. apply message_filter_None. Qed.

Lemma length_cursor_limit {A} n (l : list A) :
  n <> 0 -> List.length (cursor_limit n l) = Nat.min (Z.abs_nat n) (List.length l).
Proof.
  intros Hn. unfold cursor_limit.
  destruct (Z.eqb_spec n 0); [contradiction | apply length_take].
Qed.

(** X11.  With a positive limit, [list_messages] returns at most as many
    messages as the limit, and without [before] exactly that many, or all
    the conversation's messages when there are fewer. *)
Theorem list_messages_page_size cid limit before w :
  0 < limit ->
  exists out,
    list_messages cid limit before w = (Ok out, w) /\
    (List.length out <= Z.to_nat limit)%nat /\
    (before = None ->
     List.length out = Nat.min (Z.to_nat limit) (List.length (messages_of w cid))).
Proof.
  intros Hlimit. eexists. split; [apply list_messages_page |].
  rewrite length_fmap, length_reverse, length_cursor_limit by lia.
  replace (Z.abs_nat limit) with (Z.to_nat limit) by lia.
  split; [lia |]. intros ->. cbn [cursor]. rewrite thread_None.
  unfold sort_id_desc. now rewrite merge_sort_Permutation.
Qed.

Lemma list_messages_page_size_witness :
  exists out,
    list_messages "000000000000000000000000" 2 None thread5 = (Ok out, thread5) /\
    (List.length out <= Z.to_nat 2)%nat /\
    (@None string = None ->
     List.length out
       = Nat.min (Z.to_nat 2)
           (List.length (messages_of thread5 "000000000000000000000000"))).
Proof.
  apply (list_messages_page_size "000000000000000000000000" 2 None thread5).
  reflexivity.
Defined.

(** X12.  With a [before] that decodes, every message returned is a stored
    message of the conversation asked for whose identifier is strictly
    below the decoded one. *)
Theorem list_messages_below_cursor cid limit b o w :
  ObjectId b = Ok (Full o) ->
  exists page,
    list_messages cid limit (Some b) w = (Ok (normalize <$> page), w) /\
    forall d, d ∈ page ->
      d ∈ message w /\ schemas.conversation_id (body d) = cid /\ (_id d < o)%N.
Proof.
  intros Hdec. eexists. split; [apply list_messages_page |].
  rewrite (cursor_decoded _ _ Hdec).
  intros d Hd. apply elem_of_reverse, cursor_limit_subseteq in Hd.
  unfold sort_id_desc in Hd. rewrite merge_sort_Permutation in Hd.
  apply list_elem_of_filter in Hd as [[Hcid Hlt] Hd]. auto.
Qed.

Lemma list_messages_below_cursor_witness :
  exists page,
    list_messages "000000000000000000000000" 50 (Some "000000000000000000000003") thread5
      = (Ok (normalize <$> page), thread5) /\
    forall d, d ∈ page ->
      d ∈ message thread5 /\
      schemas.conversation_id (body d) = "000000000000000000000000" /\
      (_id d < 3)%N.
Proof.
  apply (list_messages_below_cursor _ _ "000000000000000000000003" 3%N thread5).
  reflexivity.
Defined.

(** X13.  The page holds the newest of the messages selected: a selected
    message that is left out has an identifier no greater than that of any
    message on the page. *)
Theorem list_messages_newest cid limit before w :
  exists page,
    list_messages cid limit before w = (Ok (normalize <$> page), w) /\
    page ⊆ thread w cid (cursor before) /\
    forall d p,
      d ∈ thread w cid (cursor before) -> d ∉ page -> p ∈ page ->
      (_id d <= _id p)%N.
Proof.
  eexists. split; [apply list_messages_page |].
  set (S := sort_id_desc (thread w cid (cursor before))).
  assert (Hperm : S ≡ₚ thread w cid (cursor before)) by apply merge_sort_Permutation.
  assert (Hsorted : StronglySorted id_desc S)
    by (apply StronglySorted_merge_sort; apply _).
  split.
  - intros d Hd. apply elem_of_reverse, cursor_limit_subseteq in Hd.
    now rewrite <- Hperm.
  - intros d p Hd Hout Hp.
    rewrite elem_of_reverse in Hout, Hp. rewrite <- Hperm in Hd.
    unfold cursor_limit in *. destruct (limit =? 0); [contradiction |].
    rewrite <- (take_drop (Z.abs_nat limit) S) in Hd, Hsorted.
    apply elem_of_app in Hd as [Hd | Hd]; [contradiction |].
    exact (StronglySorted_app_1_elem_of _ _ _ _ _ Hsorted Hp Hd).
Qed.

Lemma ids_ascending_filter {A} (P : stored A -> Prop) `{!forall d, Decision (P d)}
    (l : list (stored A)) :
  ids_ascending l -> ids_ascending (filter P l).
Proof.
  unfold ids_ascending. induction l as [| d l IH]; [auto |].
  rewrite fmap_cons. intros Hs. apply StronglySorted_inv in Hs as [Hs Hd].
  rewrite filter_cons. destruct (decide (P d)); [| auto].
  rewrite fmap_cons. constructor; [auto |].
  rewrite list.Forall_forall in *. intros n Hn.
  apply list_elem_of_fmap in Hn as (x & -> & Hx).
  apply list_elem_of_filter in Hx as [_ Hx].
  apply Hd. now apply list_elem_of_fmap_2.
Qed.

Lemma ids_ascending_inj {A} (l : list (stored A)) x y :
  ids_ascending l -> x ∈ l -> y ∈ l -> _id x = _id y -> x = y.
Proof.
  unfold ids_ascending. induction l as [| d l IH]; [intros _ Hx; inversion Hx |].
  rewrite fmap_cons. intros Hs Hx Hy Heq.
  apply StronglySorted_inv in Hs as [Hs Hd].
  rewrite list.Forall_forall in Hd.
  apply elem_of_cons in Hx as [-> | Hx]; apply elem_of_cons in Hy as [-> | Hy]; auto.
  - pose proof (Hd _ (list_elem_of_fmap_2 _id _ _ Hy)). lia.
  - pose proof (Hd _ (list_elem_of_fmap_2 _id _ _ Hx)). lia.
Qed.

Lemma ids_ascending_reverse {A} (l : list (stored A)) :
  ids_ascending l -> StronglySorted id_desc (reverse l).
Proof.
  unfold ids_ascending. induction l as [| d l IH]; [constructor |].
  rewrite fmap_cons. intros Hs. apply StronglySorted_inv in Hs as [Hs Hd].
  rewrite reverse_cons. apply StronglySorted_app_2; [| auto | repeat constructor].
  intros x1 x2 Hx1 Hx2. apply list_elem_of_singleton in Hx2. subst x2.
  rewrite elem_of_reverse in Hx1. rewrite list.Forall_forall in Hd.
  pose proof (Hd _ (list_elem_of_fmap_2 _id _ _ Hx1)). unfold id_desc. lia.
Qed.

(** On identifiers that grow along the list, the descending sort is the
    reversal. *)
Lemma sort_id_desc_ascending {A} (l : list (stored A)) :
  ids_ascending l -> sort_id_desc l = reverse l.
Proof.
  intros Hasc. apply (StronglySorted_unique_strong id_desc).
  - intros x y Hx Hy Hxy Hyx. unfold id_desc in *.
    unfold sort_id_desc in Hx. rewrite merge_sort_Permutation in Hx.
    rewrite elem_of_reverse in Hy.
    apply (ids_ascending_inj l); auto. lia.
  - apply StronglySorted_merge_sort; apply _.
  - now apply ids_ascending_reverse.
  - unfold sort_id_desc. now rewrite merge_sort_Permutation, reverse_Permutation.
Qed.

Lemma page_tail {A} (n : Z) (l : list (stored A)) :
  ids_ascending l ->
  reverse (cursor_limit n (sort_id_desc l))
    = if n =? 0 then l else last_n (Z.abs_nat n) l.
Proof.
  intros Hasc. rewrite (sort_id_desc_ascending _ Hasc). unfold cursor_limit, last_n.
  destruct (n =? 0); [apply reverse_involutive |].
  now rewrite reverse_take, length_reverse, reverse_involutive.
Qed.

Lemma list_messages_tail_page cid limit before w :
  ids_ascending (message w) ->
  list_messages cid limit before w =
    (Ok (normalize <$>
           (if limit =? 0 then thread w cid (cursor before)
            else last_n (Z.abs_nat limit) (thread w cid (cursor before)))), w).
Proof.
  intros Hasc. rewrite list_messages_page, page_tail; [reflexivity |].
  now apply ids_ascending_filter.
Qed.

(** X14.  When the identifiers of the stored messages grow along the
    collection, as they do when the store allocates them in order, the page
    of a limit that is not negative is the tail of the selected messages in
    the order they were stored: all of them for a limit of 0, the last ones
    up to the limit otherwise. *)
Theorem list_messages_tail cid limit before w :
  0 <= limit ->
  ids_ascending (message w) ->
  list_messages cid limit before w =
    (Ok (normalize <$>
           (if limit =? 0 then thread w cid (cursor before)
            else last_n (Z.to_nat limit) (thread w cid (cursor before)))), w).
Proof.
  intros Hlimit Hasc. rewrite list_messages_page.
  rewrite page_tail by now apply ids_ascending_filter.
  replace (Z.abs_nat limit) with (Z.to_nat limit) by lia.
  reflexivity.
Qed.

Lemma list_messages_tail_witness :
  list_messages "000000000000000000000000" 2 None thread5 =
    (Ok (normalize <$>
           (if 2 =? 0 then thread thread5 "000000000000000000000000" (cursor None)
            else last_n (Z.to_nat 2)
                   (thread thread5 "000000000000000000000000" (cursor None)))),
     thread5).
Proof.
  apply (list_messages_tail "000000000000000000000000" 2 None thread5).
  - discriminate.
  - apply (bool_decide_unpack _). vm_compute. exact I.
Defined.

Lemma thread_before w cid o :
  thread w cid (Some o) = filter (fun d => (_id d < o)%N) (thread w cid None).
Proof.
  unfold thread. rewrite list_filter_filter. apply list_filter_iff.
  intros d. unfold message_filter. tauto.
Qed.

Lemma filter_all {A} (P : A -> Prop) `{!forall x, Decision (P x)} (l : list A) :
  Forall P l -> filter P l = l.
Proof.
  induction 1 as [| x l Hx _ IH]; [reflexivity |].
  rewrite filter_cons. destruct (decide (P x)); [now rewrite IH | contradiction].
Qed.

Lemma filter_none {A} (P : A -> Prop) `{!forall x, Decision (P x)} (l : list A) :
  Forall (fun x => ~ P x) l -> filter P l = [].
Proof.
  induction 1 as [| x l Hx _ IH]; [reflexivity |].
  rewrite filter_cons. destruct (decide (P x)); [contradiction | exact IH].
Qed.

(** In a list of growing identifiers, the documents below one of them are
    those that come before it. *)
Lemma filter_below_split {A} (pre : list (stored A)) d ds :
  ids_ascending (pre ++ d :: ds) ->
  filter (fun x => (_id x < _id d)%N) (pre ++ d :: ds) = pre.
Proof.
  unfold ids_ascending. rewrite fmap_app, fmap_cons.
  intros Hs. apply StronglySorted_app in Hs as (Hcross & _ & Hs).
  apply StronglySorted_inv in Hs as [_ Hd]. rewrite list.Forall_forall in Hd.
  rewrite list.filter_app, filter_all, filter_none; [apply app_nil_r | |].
  - apply list.Forall_forall. intros x Hx Hlt.
    apply elem_of_cons in Hx as [-> | Hx]; [lia |].
    pose proof (Hd _ (list_elem_of_fmap_2 _id _ _ Hx)). lia.
  - apply list.Forall_forall. intros x Hx.
    apply (Hcross (_id x) (_id d)); [now apply list_elem_of_fmap_2 |].
    apply elem_of_cons. now left.
Qed.

Lemma last_n_split {A} (k : nat) (l : list A) :
  last_n k (take (List.length l - k) l) ++ last_n k l = last_n (k + k) l.
Proof.
  unfold last_n. rewrite length_take.
  set (n := List.length l).
  replace (Nat.min (n - k) n - k)%nat with (n - (k + k))%nat by lia.
  set (j := (n - (k + k))%nat).
  symmetry. rewrite <- (take_drop (n - k - j) (drop j l)) at 1.
  f_equal.
  - rewrite take_drop_commute. do 2 f_equal. lia.
  - rewrite drop_drop. f_equal. lia.
Qed.

(** X15.  Loading older messages leaves no gap and repeats nothing: when
    the store allocates identifiers in order, the page before the first
    message of the latest page, followed by the latest page, is the latest
    page of twice the limit. *)
Theorem list_messages_load_older cid limit w m rest :
  0 < limit ->
  ids_ascending (message w) ->
  ids_below (next_oid w) (message w) ->
  (next_oid w <= oid_bound)%N ->
  list_messages cid limit None w = (Ok (m :: rest), w) ->
  exists older,
    list_messages cid limit (Some (id m)) w = (Ok older, w) /\
    list_messages cid (2 * limit) None w = (Ok (older ++ m :: rest), w).
Proof.
  intros Hlimit Hasc Hbelow Hbound Hpage.
  assert (Hpos : (limit =? 0) = false) by (apply Z.eqb_neq; lia).
  assert (Hpos2 : (2 * limit =? 0) = false) by (apply Z.eqb_neq; lia).
  set (T := thread w cid None).
  assert (HascT : ids_ascending T) by now apply ids_ascending_filter.
  set (k := Z.abs_nat limit).
  rewrite (list_messages_tail_page _ _ _ _ Hasc), Hpos in Hpage.
  cbn [cursor] in Hpage. fold T k in Hpage.
  injection Hpage as Hpage.
  apply fmap_cons_inv in Hpage as (d & ds & -> & -> & Hlast).
  assert (Hsplit : T = take (List.length T - k) T ++ d :: ds).
  { rewrite <- Hlast. unfold last_n. now rewrite take_drop. }
  assert (Hd : d ∈ message w).
  { assert (Hin : d ∈ T) by (rewrite Hsplit; apply elem_of_app; right; now left).
    now apply list_elem_of_filter in Hin as [_ Hin]. }
  assert (Hdec : ObjectId (id (normalize d)) = Ok (Full (_id d))).
  { apply ObjectId_str_oid.
    pose proof (proj1 (list.Forall_forall _ _) Hbelow d Hd) as Hlt. cbn in Hlt. lia. }
  assert (Hthread : thread w cid (Some (_id d)) = take (List.length T - k) T).
  { rewrite thread_before. fold T. rewrite Hsplit at 1.
    apply filter_below_split. now rewrite <- Hsplit. }
  exists (normalize <$> last_n k (take (List.length T - k) T)).
  split.
  - rewrite (list_messages_tail_page _ _ _ _ Hasc), Hpos.
    now rewrite (cursor_decoded _ _ Hdec), Hthread.
  - rewrite (list_messages_tail_page _ _ _ _ Hasc), Hpos2.
    cbn [cursor]. fold T.
    replace (Z.abs_nat (2 * limit)) with (k + k)%nat by (unfold k; lia).
    rewrite <- last_n_split, fmap_app, Hlast. reflexivity.
Qed.

Lemma list_messages_load_older_witness :
  exists m rest older,
    list_messages "000000000000000000000000" 2 None thread5
      = (Ok (m :: rest), thread5) /\
    list_messages "000000000000000000000000" 2 (Some (id m)) thread5
      = (Ok older, thread5) /\
    list_messages "000000000000000000000000" (2 * 2) None thread5
      = (Ok (older ++ m :: rest), thread5).
Proof.
  assert (Hpage : exists m rest,
            list_messages "000000000000000000000000" 2 None thread5
              = (Ok (m :: rest), thread5))
    by (do 2 eexists; vm_compute; reflexivity).
  destruct Hpage as (m & rest & Hpage).
  destruct (list_messages_load_older "000000000000000000000000" 2 thread5 m rest)
    as (older & Holder & Hboth).
  - reflexivity.
  - apply (bool_decide_unpack _). vm_compute. exact I.
  - apply (bool_decide_unpack _). vm_compute. exact I.
  - vm_compute. discriminate.
  - exact Hpage.
  - exists m, rest, older. auto.
Defined.

End Pagination.

Section Invariants.

Lemma ids_ascending_snoc {A} n (l : list (stored A)) x :
  ids_ascending l -> ids_below n l -> ids_ascending (l ++ [Doc n x]).
Proof.
  unfold ids_ascending, ids_below. intros Hasc Hbelow.
  rewrite fmap_app. apply StronglySorted_app_2; [| exact Hasc | repeat constructor].
  intros x1 x2 Hx1 Hx2. apply list_elem_of_singleton in Hx2. subst x2.
  apply list_elem_of_fmap in Hx1 as (d & -> & Hd).
  exact (proj1 (list.Forall_forall _ _) Hbelow d Hd).
Qed.

(** With identifiers that do not repeat, [update_one] on an identifier
    rewrites every document that carries it, which is one at most. *)
Lemma update_first_unique {A} (f : A -> A) (l : list (stored A)) o :
  ids_ascending l ->
  update_first (fun d => _id d = o) f l
    = (fun d => if decide (_id d = o) then Doc (_id d) (f (body d)) else d) <$> l.
Proof.
  unfold ids_ascending. induction l as [| d l IH]; [reflexivity |].
  rewrite fmap_cons. intros Hs. apply StronglySorted_inv in Hs as [Hs Hd].
  cbn [update_first]. rewrite fmap_cons.
  destruct (decide (_id d = o)) as [Heq | Hne]; [| now rewrite IH].
  f_equal. rewrite <- (list_fmap_id l) at 1. apply list_fmap_ext.
  intros i x Hx. rewrite list.Forall_forall in Hd.
  apply list_elem_of_lookup_2 in Hx.
  pose proof (Hd _ (list_elem_of_fmap_2 _id _ _ Hx)).
  destruct (decide (_id x = o)); [lia | reflexivity].
Qed.

Lemma chat_inv_init n t : chat_inv (World [] [] [] n t).
Proof.
  split; cbn [chatuser conversation message].
  - apply store_inv_init.
  - constructor.
  - constructor.
  - constructor.
  - intros c Hc. inversion Hc.
  - intros c Hc. inversion Hc.
  - intros m Hm. inversion Hm.
  - intros c Hc. inversion Hc.
Qed.

Lemma chat_inv_registered payload w : chat_inv w -> chat_inv (registered payload w).
Proof.
  intros [Hstore Hu Hc Hm Htwo Hstamp Hmsg Hprev].
  split; unfold registered; cbn [chatuser conversation message next_oid clock]; auto.
  - rewrite <- create_user_world. now apply store_inv_create_user.
  - apply ids_ascending_snoc; [exact Hu | apply Hstore].
Qed.

Lemma chat_inv_advance d w : chat_inv w -> chat_inv (advance d w).
Proof.
  intros [Hstore Hu Hc Hm Htwo Hstamp Hmsg Hprev].
  split; auto. now apply store_inv_advance.
Qed.

Lemma chat_inv_started a b w :
  a <> b ->
  conversation_of_pair w a b = None ->
  chat_inv w -> chat_inv (started a b w).
Proof.
  intros Hne Hnone [Hstore Hu Hc Hm Htwo Hstamp Hmsg Hprev].
  assert (Hfresh : filter (refers_to (next_oid w)) (message w) = []).
  { apply filter_none, list.Forall_forall. intros m Hm' Href.
    destruct (Hmsg m Hm') as [(c & Hcin & Hrefc & _) _].
    unfold refers_to in *. rewrite Href in Hrefc. injection Hrefc as Hid.
    pose proof (proj1 (list.Forall_forall _ _) (inv_conversation _ Hstore) c Hcin) as Hlt.
    cbn in Hlt. lia. }
  split; unfold started; cbn [chatuser conversation message next_oid clock]; auto.
  - pose proof (store_inv_start_conversation {| user_a := a; user_b := b |} w Hstore)
      as Hnew.
    now rewrite start_conversation_new in Hnew.
  - apply ids_ascending_snoc; [exact Hc | apply Hstore].
  - intros c Hin. apply elem_of_app in Hin as [Hin | Hin]; [auto |].
    apply list_elem_of_singleton in Hin. subst c. now exists a, b.
  - intros c Hin. apply elem_of_app in Hin as [Hin | Hin]; [auto |].
    apply list_elem_of_singleton in Hin. subst c. reflexivity.
  - intros m Hm'. destruct (Hmsg m Hm') as [(c & Hcin & Hrest) Hflags].
    split; [| exact Hflags]. exists c. split; [| exact Hrest].
    apply elem_of_app. now left.
  - intros c Hin. unfold last_text. cbn [message].
    apply elem_of_app in Hin as [Hin | Hin]; [now apply Hprev |].
    apply list_elem_of_singleton in Hin. subst c. cbn [_id body].
    now rewrite Hfresh.
Qed.

Lemma chat_inv_sent payload o conv w :
  ObjectId (conversation_id payload) = Ok (Full o) ->
  conversation_by_id w o = Some conv ->
  sender_id payload ∈ schemas.participant_ids (body conv) ->
  chat_inv w -> chat_inv (sent payload conv w).
Proof.
  intros Hdec Hconv Hsender [Hstore Hu Hc Hm Htwo Hstamp Hmsg Hprev].
  destruct (head_filter_Some _ _ _ Hconv) as [Hconvin Hid]. subst o.
  set (g := fun d : stored schemas.Conversation =>
              if decide (_id d = _id conv)
              then Doc (_id d) (set_preview (text payload) (clock w) (body d))
              else d).
  assert (Hupd : conversation (sent payload conv w) = g <$> conversation w)
    by (unfold sent; cbn [conversation]; now apply update_first_unique).
  assert (Hg_id : forall d, _id (g d) = _id d)
    by (intros d; unfold g; now destruct (decide (_id d = _id conv))).
  assert (Hg_parts : forall d, schemas.participant_ids (body (g d))
                               = schemas.participant_ids (body d))
    by (intros d; unfold g; now destruct (decide (_id d = _id conv))).
  split.
  - now apply store_inv_sent.
  - exact Hu.
  - unfold ids_ascending. rewrite Hupd, <- list_fmap_compose.
    erewrite list_fmap_ext; [exact Hc |]. intros i d _. apply Hg_id.
  - unfold sent. cbn [message]. apply ids_ascending_snoc; [exact Hm | apply Hstore].
  - intros c Hin. rewrite Hupd in Hin. apply list_elem_of_fmap in Hin as (d & -> & Hd).
    destruct (Htwo d Hd) as (a & b & Hne & Hparts).
    exists a, b. split; [exact Hne |]. now rewrite Hg_parts.
  - intros c Hin. rewrite Hupd in Hin. apply list_elem_of_fmap in Hin as (d & -> & Hd).
    unfold g. destruct (decide (_id d = _id conv)); [| auto].
    unfold stamped. cbn. eauto.
  - intros m Hm'. unfold sent in Hm'. cbn [message] in Hm'.
    assert (Hkeep : forall c, c ∈ conversation w ->
              refers_to (_id c) m ->
              schemas.sender_id (body m) ∈ schemas.participant_ids (body c) ->
              exists c', c' ∈ conversation (sent payload conv w) /\
                         refers_to (_id c') m /\
                         schemas.sender_id (body m) ∈ schemas.participant_ids (body c')).
    { intros c Hcin Href Hpart. exists (g c).
      rewrite Hupd, Hg_id, Hg_parts. split; [now apply list_elem_of_fmap_2 | auto]. }
    apply elem_of_app in Hm' as [Hm' | Hm'].
    + destruct (Hmsg m Hm') as [(c & Hcin & Href & Hpart) Hflags].
      split; [eauto | exact Hflags].
    + apply list_elem_of_singleton in Hm'. subst m.
      split; [| split; reflexivity]. apply (Hkeep conv); auto.
  - intros c Hin. rewrite Hupd in Hin. apply list_elem_of_fmap in Hin as (d & -> & Hd).
    unfold last_text, sent. cbn [message]. rewrite list.filter_app, filter_cons, filter_nil.
    rewrite Hg_id. unfold g.
    destruct (decide (_id d = _id conv)) as [Heq | Hne].
    + destruct (decide (refers_to (_id d) (posted_message payload (next_oid w))))
        as [_ | Hno]; [| exfalso; apply Hno; unfold refers_to; cbn; congruence].
      now rewrite last_snoc.
    + destruct (decide (refers_to (_id d) (posted_message payload (next_oid w))))
        as [Hyes | _].
      { exfalso. apply Hne. unfold refers_to in Hyes. cbn in Hyes. congruence. }
      rewrite app_nil_r. now apply Hprev.
Qed.

(** Every store that requests lead to satisfies the invariants. *)
Lemma reachable_chat_inv w : reachable w -> chat_inv w.
Proof.
  induction 1 as [n t | r w Hreach IH]; [apply chat_inv_init |].
  destruct r as [p | p | p | cid limit before | d]; cbn [serve].
  - rewrite create_user_world. now apply chat_inv_registered.
  - destruct (start_conversation_world p w) as [-> | (Hne & Hnone & ->)];
      [exact IH | now apply chat_inv_started].
  - destruct (send_message_cases p w) as [-> | (o & conv & Hdec & Hconv & Hin & ->)];
      [exact IH | now apply (chat_inv_sent p o)].
  - now rewrite list_messages_world.
  - now apply chat_inv_advance.
Qed.

Lemma reachable_alice_bob_hello : reachable alice_bob_hello.
Proof.
  exact (reachable_step
           (SendMessageReq {| conversation_id := "000000000000000000000000";
                              sender_id := "alice"; text := "hello" |}) _
           (reachable_step (Tick 5) _
              (reachable_step
                 (StartConversationReq {| user_a := "alice"; user_b := "bob" |}) _
                 (reachable_init 0%N 0)))).
Qed.

(** X16.  In every store that requests lead to, each conversation has
    exactly two participants, and they differ: it meets the bounds the
    [Conversation] schema declares. *)
Theorem reachable_two_party w c :
  reachable w -> c ∈ conversation w ->
  two_party c /\ schemas.Conversation_valid (body c) = true.
Proof.
  intros Hreach Hin.
  pose proof (chat_two_party _ (reachable_chat_inv _ Hreach) c Hin) as Htwo.
  split; [exact Htwo |].
  destruct Htwo as (a & b & _ & Hparts).
  unfold schemas.Conversation_valid. now rewrite Hparts.
Qed.

Lemma reachable_two_party_witness :
  let c := (Doc 0%N {| schemas.participant_ids := ["alice"; "bob"];
              schemas.last_message_preview := Some "hello";
              schemas.updated_at := Some (Datetime 5) |}) in
  two_party c /\ schemas.Conversation_valid (body c) = true.
Proof.
  intros c. apply (reachable_two_party alice_bob_hello c).
  - exact reachable_alice_bob_hello.
  - vm_compute. apply list_elem_of_here.
Defined.

(** X17.  In every store that requests lead to, two distinct users share at
    most one conversation. *)
Theorem reachable_one_conversation_per_pair w a b c1 c2 :
  reachable w -> a <> b ->
  c1 ∈ conversation w -> c2 ∈ conversation w ->
  between a b c1 -> between a b c2 ->
  c1 = c2.
Proof.
  intros Hreach Hne Hin1 Hin2 Hc1 Hc2.
  apply list_elem_of_lookup in Hin1 as [i Hi].
  apply list_elem_of_lookup in Hin2 as [j Hj].
  pose proof (inv_pairs _ (reachable_inv _ Hreach) i j c1 c2 a b Hne Hi Hj Hc1 Hc2).
  subst j. congruence.
Qed.

Lemma reachable_one_conversation_per_pair_witness :
  let c := (Doc 0%N {| schemas.participant_ids := ["alice"; "bob"];
              schemas.last_message_preview := Some "hello";
              schemas.updated_at := Some (Datetime 5) |}) in
  c ∈ conversation alice_bob_hello /\ between "alice" "bob" c /\ c = c.
Proof.
  intros c.
  assert (Hin : c ∈ conversation alice_bob_hello)
    by (vm_compute; apply list_elem_of_here).
  assert (Hc : between "alice" "bob" c)
    by (split; apply (bool_decide_unpack _); vm_compute; exact I).
  split; [exact Hin |]. split; [exact Hc |].
  apply (reachable_one_conversation_per_pair alice_bob_hello "alice" "bob" c c).
  - exact reachable_alice_bob_hello.
  - discriminate.
  - exact Hin.
  - exact Hin.
  - exact Hc.
  - exact Hc.
Defined.

(** X18.  In every store that requests lead to, each message was sent to a
    conversation that is in the store by one of its participants, and is
    still flagged delivered and unread. *)
Theorem reachable_messages_sound w m :
  reachable w -> m ∈ message w -> message_sound w m.
Proof.
  intros Hreach Hin. exact (chat_messages _ (reachable_chat_inv _ Hreach) m Hin).
Qed.

Lemma reachable_messages_sound_witness :
  let m := (Doc 1%N {| schemas.conversation_id := "000000000000000000000000";
              schemas.sender_id := "alice"; schemas.text := "hello";
              schemas.delivered := true; schemas.read := false |}) in
  message_sound alice_bob_hello m.
Proof.
  intros m. apply (reachable_messages_sound alice_bob_hello m).
  - exact reachable_alice_bob_hello.
  - vm_compute. apply list_elem_of_here.
Defined.

(** X19.  In every store that requests lead to, a conversation's preview is
    the text of the last message sent to it, and is absent when none was;
    and the conversation carries a timestamp, a date, exactly when it
    carries a preview. *)
Theorem reachable_preview_of_last_message w c :
  reachable w -> c ∈ conversation w ->
  schemas.last_message_preview (body c) = last_text w (_id c) /\ stamped c.
Proof.
  intros Hreach Hin. pose proof (reachable_chat_inv _ Hreach) as Hinv.
  split; [now apply (chat_preview _ Hinv) | now apply (chat_stamped _ Hinv)].
Qed.

Lemma reachable_preview_of_last_message_witness :
  let c := (Doc 0%N {| schemas.participant_ids := ["alice"; "bob"];
              schemas.last_message_preview := Some "hello";
              schemas.updated_at := Some (Datetime 5) |}) in
  schemas.last_message_preview (body c) = last_text alice_bob_hello (_id c) /\
  stamped c.
Proof.
  intros c. apply (reachable_preview_of_last_message alice_bob_hello c).
  - exact reachable_alice_bob_hello.
  - vm_compute. apply list_elem_of_here.
Defined.

End Invariants.

Section Composition.

Lemma last_n_snoc {A} (k : nat) (l : list A) x :
  (1 <= k)%nat -> last_n k (l ++ [x]) = last_n (k - 1) l ++ [x].
Proof.
  intros Hk. unfold last_n. rewrite length_app. cbn [List.length].
  replace (List.length l + 1 - k)%nat with (List.length l - (k - 1))%nat by lia.
  apply drop_app_le. lia.
Qed.

(** X20.  A message just sent closes the thread: after a successful
    [send_message], [list_messages] for the same conversation string and
    without [before] returns a page that ends with the message the send
    answered with, whatever the limit. *)
Theorem list_messages_after_send payload w o conv limit :
  ObjectId (conversation_id payload) = Ok (Full o) ->
  conversation_by_id w o = Some conv ->
  sender_id payload ∈ schemas.participant_ids (body conv) ->
  ids_ascending (message w) ->
  ids_below (next_oid w) (message w) ->
  (next_oid w < oid_bound)%N ->
  exists m w' earlier,
    send_message payload w = (Ok (Some m), w') /\
    list_messages (conversation_id payload) limit None w' = (Ok (earlier ++ [m]), w').
Proof.
  intros Hdec Hconv Hin Hasc Hbelow Hbound.
  exists (normalize (posted_message payload (next_oid w))), (sent payload conv w).
  assert (Hasc' : ids_ascending (message (sent payload conv w)))
    by (unfold sent; cbn [message]; now apply ids_ascending_snoc).
  assert (Hthread : thread (sent payload conv w) (conversation_id payload) None
                    = thread w (conversation_id payload) None
                      ++ [posted_message payload (next_oid w)]).
  { unfold thread, sent. cbn [message]. rewrite list.filter_app, filter_cons, filter_nil.
    destruct (decide (message_filter (conversation_id payload) None
                        (posted_message payload (next_oid w)))) as [_ | Hno];
      [reflexivity | exfalso; apply Hno; now split]. }
  rewrite (send_message_Ok _ _ _ _ Hdec Hconv Hin Hbelow Hbound).
  rewrite (list_messages_tail_page _ _ _ _ Hasc'). cbn [cursor]. rewrite Hthread.
  destruct (Z.eqb_spec limit 0) as [_ | Hlimit].
  - eexists. split; [reflexivity |]. now rewrite fmap_app.
  - eexists. split; [reflexivity |].
    rewrite last_n_snoc by lia. now rewrite fmap_app.
Qed.

Lemma list_messages_after_send_witness :
  exists m w' earlier,
    send_message {| conversation_id := "000000000000000000000000";
                    sender_id := "bob"; text := "hi alice" |} alice_bob_hello
      = (Ok (Some m), w') /\
    list_messages "000000000000000000000000" 1 None w' = (Ok (earlier ++ [m]), w').
Proof.
  apply (list_messages_after_send
           {| conversation_id := "000000000000000000000000";
              sender_id := "bob"; text := "hi alice" |}
           alice_bob_hello 0%N
           (Doc 0%N {| schemas.participant_ids := ["alice"; "bob"];
                       schemas.last_message_preview := Some "hello";
                       schemas.updated_at := Some (Datetime 5) |}) 1).
  - reflexivity.
  - reflexivity.
  - apply (bool_decide_unpack _). vm_compute. exact I.
  - apply (bool_decide_unpack _). vm_compute. exact I.
  - vm_compute. repeat constructor.
  - vm_compute. reflexivity.
Defined.

(** X21.  [to_str_id] hands out a conversation under an [id] of 24
    characters that decodes back to the stored identifier, with the
    participants and the preview as stored and the timestamp, when there is
    one, as ISO text; and it returns [None] for [None]. *)
Theorem to_str_id_conversation (c : stored schemas.Conversation) :
  (_id c < oid_bound)%N ->
  to_str_id (@None (stored schemas.Conversation)) = None /\
  exists n,
    to_str_id (Some c) = Some n /\
    String.length (id n) = 24%nat /\
    ObjectId (id n) = Ok (Full (_id c)) /\
    schemas.participant_ids (fields n) = schemas.participant_ids (body c) /\
    schemas.last_message_preview (fields n) = schemas.last_message_preview (body c) /\
    match schemas.updated_at (body c) with
    | None => schemas.updated_at (fields n) = None
    | Some (Datetime t) | Some (IsoText t) =>
        schemas.updated_at (fields n) = Some (IsoText t)
    end.
Proof.
  intros Hbound. split; [reflexivity |].
  exists (normalize c). split; [reflexivity |].
  split; [apply length_hexlify |].
  split; [now apply ObjectId_str_oid |].
  split; [reflexivity |]. split; [reflexivity |].
  cbn. now destruct (schemas.updated_at (body c)) as [[t | t] |].
Qed.

Lemma to_str_id_conversation_witness :
  let c := Doc 10%N {| schemas.participant_ids := ["alice"; "bob"];
                       schemas.last_message_preview := Some "hello";
                       schemas.updated_at := Some (Datetime 5) |} in
  to_str_id (@None (stored schemas.Conversation)) = None /\
  exists n,
    to_str_id (Some c) = Some n /\
    String.length (id n) = 24%nat /\
    ObjectId (id n) = Ok (Full 10%N) /\
    schemas.participant_ids (fields n) = ["alice"; "bob"] /\
    schemas.last_message_preview (fields n) = Some "hello" /\
    schemas.updated_at (fields n) = Some (IsoText 5).
Proof.
  intros c. apply (to_str_id_conversation c). vm_compute. reflexivity.
Defined.

End Composition.
